(** * Muskit: frame-label aggregation and segment extraction

    A shallow embedding of [muskit/svs/feats_extract/score_feats_extract.py]
    (class [FrameLabelAggregate]: [forward] and [get_segments]) and the
    properties of it that the specification states.

    Tensors of labels are nested lists of integers, Python exceptions are the
    [Raise] outcomes of a small error monad, and the in-place slice
    assignments of the centre padding are functional list updates performed
    in the order of the source. *)

From stdpp Require Import base option list sorting gmap.
From Stdlib Require Import ZArith Lia.

Local Open Scope Z_scope.

(** ** Exceptions and the error monad *)

Inductive exn : Type :=
  | IndexError
  | UnboundLocalError
  | ZeroDivisionError
  | RuntimeError.

Inductive result (A : Type) : Type :=
  | Ok (a : A)
  | Raise (e : exn).

Arguments Ok {A} a.
Arguments Raise {A} e.

#[global] Instance result_ret : MRet result := λ A a, Ok a.
#[global] Instance result_bind : MBind result := λ A B f m,
  match m with
  | Ok a => f a
  | Raise e => Raise e
  end.

(** A [for] loop over a list of indices whose body may raise. *)
Fixpoint foldlM {A B : Type} (f : B → A → result B) (b : B) (l : list A)
  : result B :=
  match l with
  | [] => Ok b
  | a :: l => b' ← f b a; foldlM f b' l
  end.

(** The same for a comprehension: every element is computed, in order. *)
Fixpoint mapM_result {A B : Type} (f : A → result B) (l : list A)
  : result (list B) :=
  match l with
  | [] => Ok []
  | a :: l => b ← f a; bs ← mapM_result f l; Ok (b :: bs)
  end.

(** ** One-dimensional tensors, Python indexing and slicing *)

(** [t[i]] for [0 <= i]: an index past the end raises. *)
Definition getitem {A : Type} (t : list A) (i : nat) : result A :=
  match t !! i with
  | Some v => Ok v
  | None => Raise IndexError
  end.

(** [l[-1]]. *)
Definition getlast {A : Type} (l : list A) : result A :=
  match last l with
  | Some v => Ok v
  | None => Raise IndexError
  end.

(** [t[l:r]] for [0 <= l] and [0 <= r]: slices are clipped, never raise. *)
Definition slice {A : Type} (t : list A) (l r : nat) : list A :=
  take (r - l) (drop l t).

(** ** The mode of a tensor *)

Definition count_of (x : Z) (l : list Z) : nat :=
  length (filter (λ y, y = x) l).

(** [beats l y best]: [y] is a better candidate than [best] for the mode of
    [l]: it occurs more often, or as often and is smaller. *)
Definition beats (l : list Z) (y best : Z) : bool :=
  bool_decide (count_of best l < count_of y l)%nat
  || (bool_decide (count_of y l = count_of best l) && bool_decide (y < best)).

(** Modelled from the spec: [torch.Tensor.mode] belongs to PyTorch and is not
    under src/.  The specification fixes it as the most frequent value of a
    finite collection, ties going to the lowest numeric value among the tied
    candidates; an empty reduction dimension is an error. *)
Definition mode (l : list Z) : result Z :=
  match l with
  | [] => Raise IndexError
  | x :: xs => Ok (foldl (λ best y, if beats l y best then y else best) x xs)
  end.

(** ** [FrameLabelAggregate] *)

(** The fields of the object that [forward] and [get_segments] read. *)
Record FrameLabelAggregate : Type := {
  win_length : nat;
  hop_length : nat;
  center : bool
}.

(** *** [get_segments] *)

(** The body of both boundary loops:
    [if x[seq[-1]] != x[i]: seq.append(i)]. *)
Definition boundary_step (x : list Z) (sq : list nat) (i : nat)
  : result (list nat) :=
  j ← getlast sq;
  a ← getitem x j;
  b ← getitem x i;
  Ok (if bool_decide (a ≠ b) then sq ++ [i] else sq).

(** [for i in range(n): ...] started from the list [sq]. *)
Definition boundary_loop (x : list Z) (n : nat) (sq : list nat)
  : result (list nat) :=
  foldlM (boundary_step x) sq (seq 0 n).

(** One walk: the loop, then [seq.append(n)]. *)
Definition boundary_walk (x : list Z) (n : nat) (sq : list nat)
  : result (list nat) :=
  sq' ← boundary_loop x n sq;
  Ok (sq' ++ [n]).

(** [seq = list(set(seq)); seq.sort()]. *)
Definition sorted_set (sq : list nat) : list nat :=
  merge_sort (≤)%nat (elements (list_to_set sq : gset nat)).

(** The boundary list at the end of the two walks. *)
Definition boundaries (durations : list Z) (durations_lengths : nat)
    (score : list Z) (score_lengths : nat) : result (list nat) :=
  sq ← boundary_walk durations durations_lengths [0%nat];
  sq ← boundary_walk score score_lengths (sq ++ [0%nat]);
  Ok (sorted_set sq).

(** The body of the segment loop. *)
Definition segment_step (durations score tempo : list Z) (sq : list nat)
    (acc : list Z * list Z * list Z) (i : nat)
  : result (list Z * list Z * list Z) :=
  let '(seg_duartion, seg_score, seg_tempo) := acc in
  l ← getitem sq i;
  r ← getitem sq (i + 1)%nat;
  tmp_duartion ← mode (slice durations l r);
  tmp_score ← mode (slice score l r);
  tmp_tempo ← mode (slice tempo l r);
  Ok (seg_duartion ++ [tmp_duartion], seg_score ++ [tmp_score],
      seg_tempo ++ [tmp_tempo]).

(** Valid lengths are counts of samples, hence natural numbers. *)
Definition get_segments (durations : list Z) (durations_lengths : nat)
    (score : list Z) (score_lengths : nat)
    (tempo : list Z) (tempo_lengths : nat)
  : result (list Z * nat * list Z * nat * list Z * nat) :=
  sq ← boundaries durations durations_lengths score score_lengths;
  let lengths := (length sq - 1)%nat in
  segs ← foldlM (segment_step durations score tempo sq) ([], [], [])
                (seq 0 lengths);
  let '(seg_duartion, seg_score, seg_tempo) := segs in
  Ok (seg_duartion, lengths, seg_score, lengths, seg_tempo, lengths).

(** *** [forward] *)

(** [input.size(1)] and [input.size(2)] of a (Batch, Nsamples, Label_dim)
    tensor held as nested lists; the shape is read from the first item, so
    the sizes are those of the tensor when no axis before them is empty. *)
Definition size1 {A : Type} (t : list (list A)) : nat :=
  match t with
  | [] => 0%nat
  | x :: _ => length x
  end.

Definition size2 {A : Type} (t : list (list (list A))) : nat :=
  match t with
  | [] => 0%nat
  | x :: _ => size1 x
  end.

(** [torch.nn.functional.pad(input, (0, 0, pad, pad), "constant", 0)]:
    [pad] rows of zeros before and after the time axis of every item. *)
Definition pad_constant (pad label_dim : nat) (input : list (list (list Z)))
  : list (list (list Z)) :=
  (λ x, replicate pad (replicate label_dim 0) ++ x
        ++ replicate pad (replicate label_dim 0)) <$> input.

(** [x[lo:hi] = src] on the time axis of one item; the shapes must agree. *)
Definition setitem_slice {A : Type} (x : list A) (lo hi : nat) (src : list A)
  : result (list A) :=
  if bool_decide (length (slice x lo hi) = length src)
  then Ok (take lo x ++ src ++ drop hi x)
  else Raise RuntimeError.

(** [input[:, lo:hi, :] = input[:, lo':hi', :]]: the right-hand side is read
    from the buffer as it is when the assignment runs. *)
Definition copy_slice (lo hi lo' hi' : nat) (input : list (list (list Z)))
  : result (list (list (list Z))) :=
  mapM_result (λ x, setitem_slice x lo hi (slice x lo' hi')) input.

(** Step 1 of [forward] when [center] holds; [max_length] is the padded
    length [input.size(1) + 2 * pad]. *)
Definition center_padding (pad max_length label_dim : nat)
    (input : list (list (list Z))) : result (list (list (list Z))) :=
  let input := pad_constant pad label_dim input in
  input ← copy_slice 0 pad pad (2 * pad) input;
  copy_slice (max_length - pad) max_length
             (max_length - 2 * pad) (max_length - pad) input.

(** The storage of a contiguous tensor, row-major. *)
Definition storage_of (input : list (list (list Z))) : list Z :=
  concat (concat input).

(** [Tensor.as_strided] with four sizes and four strides over a storage;
    reading outside the storage is refused. *)
Definition as_strided (storage : list Z) (size stride : nat * nat * nat * nat)
  : result (list (list (list (list Z)))) :=
  let '(n0, n1, n2, n3) := size in
  let '(s0, s1, s2, s3) := stride in
  mapM_result (λ b,
    mapM_result (λ f,
      mapM_result (λ w,
        mapM_result (λ d,
          match storage !! (b * s0 + f * s1 + w * s2 + d * s3)%nat with
          | Some v => Ok v
          | None => Raise RuntimeError
          end) (seq 0 n3)) (seq 0 n2)) (seq 0 n1)) (seq 0 n0).

(** [.sum(dim=2)] on one (win_length, label_dim) window: the rows of the
    window are added up, one sum per label channel. *)
Definition sum_dim2 (label_dim : nat) (window : list (list Z)) : list Z :=
  foldl (zip_with Z.add) (replicate label_dim 0) window.

(** Step 3: [output.sum(dim=2, keepdim=False).mode(dim=-1, keepdim=False)]. *)
Definition aggregate (label_dim : nat) (output : list (list (list (list Z))))
  : result (list (list Z)) :=
  mapM_result (mapM_result (λ window, mode (sum_dim2 label_dim window))) output.

(** Modelled from the spec: [make_pad_mask] lives in
    muskit/torch_utils/nets_utils.py, which is not under src/.  For the
    length vector [lengths] and the tensor [xs] with the length on axis 1,
    the mask has one row per length and is set at the frame indices at or
    after that length. *)
Definition make_pad_mask (lengths : list Z) (xs : list (list Z))
  : list (list bool) :=
  (λ len, (λ t : nat, bool_decide (len ≤ Z.of_nat t)) <$> seq 0 (size1 xs))
    <$> lengths.

(** [output.masked_fill_(mask, 0.0)]; the mask must have the batch size of
    the output. *)
Definition masked_fill (output : list (list Z)) (mask : list (list bool))
  : result (list (list Z)) :=
  if bool_decide (length mask = length output)
  then Ok (zip_with (zip_with (λ (v : Z) (m : bool), if m then 0 else v))
                    output mask)
  else Raise RuntimeError.

(** [(n - win_length) // hop_length + 1]; Python's [//] is the floor
    division, which [Z.div] is for a positive divisor. *)
Definition frames_of (self : FrameLabelAggregate) (n : Z) : Z :=
  (n - Z.of_nat (win_length self)) / Z.of_nat (hop_length self) + 1.

Definition forward (self : FrameLabelAggregate)
    (input : list (list (list Z))) (input_lengths : option (list Z))
  : result (list (list Z) * option (list Z)) :=
  let bs := length input in
  let max_length := size1 input in
  let label_dim := size2 input in
  (* Step1: center padding; [nframe] is bound in this branch only *)
  st ← (if center self then
          let pad := (win_length self / 2)%nat in
          let max_length := (max_length + 2 * pad)%nat in
          input ← center_padding pad max_length label_dim input;
          if bool_decide (hop_length self = 0%nat)
          then Raise ZeroDivisionError
          else Ok (input, max_length,
                   Some (frames_of self (Z.of_nat max_length)))
        else Ok (input, max_length, None));
  let '(input, max_length, nframe) := st in
  (* Step2: framing *)
  nframe ← (match nframe with
            | Some n => Ok n
            | None => Raise UnboundLocalError
            end);
  output ← (if bool_decide (nframe < 0) then Raise RuntimeError
            else as_strided (storage_of input)
                   (bs, Z.to_nat nframe, win_length self, label_dim)
                   ((max_length * label_dim)%nat,
                    (hop_length self * label_dim)%nat, label_dim, 1%nat));
  (* Step3: aggregate label *)
  output ← aggregate label_dim output;
  (* Step4: process lengths *)
  match input_lengths with
  | Some input_lengths =>
      let input_lengths :=
        if center self
        then (λ n, n + 2 * Z.of_nat (win_length self / 2)) <$> input_lengths
        else input_lengths in
      let olens := frames_of self <$> input_lengths in
      output ← masked_fill output (make_pad_mask olens output);
      Ok (output, Some olens)
  | None => Ok (output, None)
  end.

(** ** [ListsToTensor] and [syllable_forward] *)

(** The exceptions of the batch level: the two that only it raises, and
    those that come up from [get_segments] and from indexing. *)
Inductive batch_exn : Type :=
  | AssertionError
  | ValueError
  | Raised (e : exn).

Inductive outcome (A : Type) : Type :=
  | Done (a : A)
  | Fail (e : batch_exn).

Arguments Done {A} a.
Arguments Fail {A} e.

#[global] Instance outcome_ret : MRet outcome := λ A a, Done a.
#[global] Instance outcome_bind : MBind outcome := λ A B f m,
  match m with
  | Done a => f a
  | Fail e => Fail e
  end.

Definition lift {A : Type} (r : result A) : outcome A :=
  match r with
  | Ok a => Done a
  | Raise e => Fail (Raised e)
  end.

(** [max(len(x) for x in xs)] raises [ValueError] on an empty [xs]; then
    every list is extended with zeros to that length. *)
Definition ListsToTensor (xs : list (list Z)) : outcome (list (list Z)) :=
  match xs with
  | [] => Fail ValueError
  | _ :: _ =>
      let max_len := max_list (length <$> xs) in
      Done ((λ x, x ++ replicate (max_len - length x) 0) <$> xs)
  end.

(** [t.shape] of a (Batch, Nsamples) tensor held as nested lists. *)
Definition shape2 {A : Type} (t : list (list A)) : nat * nat :=
  (length t, size1 t).

(** The six lists that the loop of [syllable_forward] appends to. *)
Record seg_lists : Type := {
  seg_durations : list (list Z);
  seg_durations_lengths : list nat;
  seg_score : list (list Z);
  seg_score_lengths : list nat;
  seg_tempo : list (list Z);
  seg_tempo_lengths : list nat
}.

(** The body of the loop over the batch: item [i] of every argument goes to
    [get_segments], and the six results are appended. *)
Definition syllable_step (durations : list (list Z))
    (durations_lengths : list nat) (score : list (list Z))
    (score_lengths : list nat) (tempo : list (list Z))
    (tempo_lengths : list nat) (acc : seg_lists) (i : nat)
  : result seg_lists :=
  d ← getitem durations i;
  dl ← getitem durations_lengths i;
  s ← getitem score i;
  sl ← getitem score_lengths i;
  t ← getitem tempo i;
  tl ← getitem tempo_lengths i;
  seg ← get_segments d dl s sl t tl;
  let '(seg0, seg1, seg2, seg3, seg4, seg5) := seg in
  Ok {| seg_durations := seg_durations acc ++ [seg0];
        seg_durations_lengths := seg_durations_lengths acc ++ [seg1];
        seg_score := seg_score acc ++ [seg2];
        seg_score_lengths := seg_score_lengths acc ++ [seg3];
        seg_tempo := seg_tempo acc ++ [seg4];
        seg_tempo_lengths := seg_tempo_lengths acc ++ [seg5] |}.

Definition syllable_forward (durations : list (list Z))
    (durations_lengths : list nat) (score : list (list Z))
    (score_lengths : list nat) (tempo : list (list Z))
    (tempo_lengths : list nat)
  : outcome (list (list Z) * list nat * list (list Z) * list nat
             * list (list Z) * list nat) :=
  if negb (bool_decide (shape2 durations = shape2 score
                        ∧ shape2 score = shape2 tempo))
  then Fail AssertionError
  else if negb (bool_decide (length durations_lengths = length score_lengths
                             ∧ length score_lengths = length tempo_lengths))
  then Fail AssertionError
  else
    let bs := length durations in
    segs ← lift (foldlM (syllable_step durations durations_lengths score
                           score_lengths tempo tempo_lengths)
                   {| seg_durations := []; seg_durations_lengths := [];
                      seg_score := []; seg_score_lengths := [];
                      seg_tempo := []; seg_tempo_lengths := [] |}
                   (seq 0 bs));
    seg_durations' ← ListsToTensor (seg_durations segs);
    seg_score' ← ListsToTensor (seg_score segs);
    seg_tempo' ← ListsToTensor (seg_tempo segs);
    Done (seg_durations', seg_durations_lengths segs,
          seg_score', seg_score_lengths segs,
          seg_tempo', seg_tempo_lengths segs).

(** [v] is what the segment loop reports for stream [x] at segment [i] of
    the boundary list [sq]: the mode of [x[sq[i]:sq[i+1]]]. *)
Definition segment_value (x : list Z) (sq : list nat) (i : nat) (v : Z)
  : Prop :=
  ∃ l r, sq !! i = Some l ∧ sq !! (i + 1)%nat = Some r
         ∧ mode (slice x l r) = Ok v.

(** [r] is what [get_segments] returns for item [i] of a batch. *)
Definition item_segments (durations : list (list Z))
    (durations_lengths : list nat) (score : list (list Z))
    (score_lengths : list nat) (tempo : list (list Z))
    (tempo_lengths : list nat) (i : nat)
    (r : list Z * nat * list Z * nat * list Z * nat) : Prop :=
  ∃ d dl s sl t tl,
    durations !! i = Some d ∧ durations_lengths !! i = Some dl
    ∧ score !! i = Some s ∧ score_lengths !! i = Some sl
    ∧ tempo !! i = Some t ∧ tempo_lengths !! i = Some tl
    ∧ get_segments d dl s sl t tl = Ok r.

(** ** The specification's reading of the frame reduction *)

(** This definition follows the specification, not the source: sum each
    in-window sample along the label axis, one scalar per time position of
    the window, then take the mode of those scalars across the window. *)
Definition spec_frame_label (window : list (list Z)) : result Z :=
  mode ((λ sample, foldr Z.add 0 sample) <$> window).

(** The most recently recorded boundary before step [i], among the recorded
    boundaries [bs]: the last one below [i], index 0 at the start. *)
Definition most_recent (bs : list nat) (i : nat) : nat :=
  default 0%nat (last (filter (λ j, j < i)%nat bs)).

(** What the specification says of the indices [rec] recorded by a walk over
    the first [n] samples of [x]: index [i] is recorded exactly when its value
    differs from the value at the most recently recorded boundary. *)
Definition recorded_by_last (x : list Z) (n : nat) (rec : list nat) : Prop :=
  Forall (λ j, 0 < j < n)%nat rec
  ∧ ∀ i, (i < n)%nat → (i ∈ rec ↔ x !! most_recent (0%nat :: rec) i ≠ x !! i).

(** What the padding step leaves in one item [p] of the buffer. *)
Definition edges_copied (pad max_length : nat) (p : list (list Z)) : Prop :=
  length p = max_length
  ∧ slice p 0 pad = slice p pad (2 * pad)
  ∧ slice p (max_length - pad) max_length
    = slice p (max_length - 2 * pad) (max_length - pad).

(** A (B, N, D) tensor as nested lists. *)
Definition has_shape (input : list (list (list Z))) (B N D : nat) : Prop :=
  length input = B
  ∧ Forall (λ x, length x = N ∧ Forall (λ r : list Z, length r = D) x) input.

(** * Properties *)

(** ** The error monad *)

Lemma foldlM_app {A B : Type} (f : B → A → result B) (b : B) (l k : list A) :
  foldlM f b (l ++ k) = (b' ← foldlM f b l; foldlM f b' k).
Proof.
  revert b. induction l as [|a l IH]; intros b; simpl; [done|].
  destruct (f b a) as [b'|e]; simpl; [apply IH|done].
Qed.

Lemma foldlM_ext_in {A B : Type} (f g : B → A → result B) (b : B)
    (l : list A) :
  (∀ b a, a ∈ l → f b a = g b a) → foldlM f b l = foldlM g b l.
Proof.
  revert b. induction l as [|a l IH]; intros b Hfg; simpl; [done|].
  rewrite Hfg by left. destruct (g b a); simpl; [|done].
  apply IH. intros ? ? ?. apply Hfg. by right.
Qed.

(** ** The mode *)

Lemma beats_spec (l : list Z) (y best : Z) :
  beats l y best = true ↔
  (count_of best l < count_of y l)%nat
  ∨ (count_of y l = count_of best l ∧ y < best).
Proof.
  unfold beats.
  rewrite orb_true_iff, andb_true_iff, !bool_decide_eq_true. tauto.
Qed.

Lemma beats_false (l : list Z) (y best : Z) :
  beats l y best = false ↔
  (count_of y l ≤ count_of best l)%nat
  ∧ (count_of y l = count_of best l → best ≤ y).
Proof.
  rewrite <- not_true_iff_false, beats_spec. lia.
Qed.

Lemma count_of_pos (x : Z) (l : list Z) : x ∈ l ↔ (0 < count_of x l)%nat.
Proof.
  unfold count_of. induction l as [|a l IH].
  - rewrite elem_of_nil. simpl. lia.
  - rewrite elem_of_cons, IH.
    rewrite filter_cons. destruct (decide (a = x)); simpl; [|intuition lia].
    split; [lia|auto].
Qed.

(** The running best of the scan is an element seen so far that no element
    seen so far beats. *)
Lemma mode_scan (l xs : list Z) (x : Z) :
  let r := foldl (λ best y, if beats l y best then y else best) x xs in
  r ∈ x :: xs ∧ ∀ y, y ∈ x :: xs → beats l y r = false.
Proof.
  revert x. induction xs as [|a xs IH]; intros x; simpl.
  - split; [left|]. intros y ->%list_elem_of_singleton.
    apply beats_false. lia.
  - destruct (IH (if beats l a x then a else x)) as [Hin Hbest].
    set (r := foldl _ _ xs) in *.
    split.
    + apply elem_of_cons in Hin as [Hr|Hr].
      * rewrite Hr. destruct (beats l a x); [right; left|left].
      * right. by right.
    + intros y Hy.
      assert (Hx' := Hbest _ (list_elem_of_here _ _)).
      destruct (beats l a x) eqn:Hax.
      * apply elem_of_cons in Hy as [->|Hy]; [|by apply Hbest].
        apply beats_spec in Hax. apply beats_false in Hx'.
        apply beats_false. lia.
      * apply elem_of_cons in Hy as [->|Hy]; [done|].
        apply elem_of_cons in Hy as [->|Hy]; [|apply Hbest; by right].
        apply beats_false in Hax, Hx'. apply beats_false. lia.
Qed.

Lemma mode_spec (l : list Z) :
  l ≠ [] →
  ∃ m, mode l = Ok m ∧ m ∈ l
       ∧ (∀ y, count_of y l ≤ count_of m l)%nat
       ∧ (∀ y, count_of y l = count_of m l → m ≤ y).
Proof.
  destruct l as [|x xs]; [done|]. intros _.
  eexists. split; [reflexivity|].
  destruct (mode_scan (x :: xs) xs x) as [Hin Hbest].
  set (m := foldl _ _ xs) in *.
  assert (Hm : (0 < count_of m (x :: xs))%nat) by by apply count_of_pos.
  split; [done|]. split.
  - intros y. destruct (decide (y ∈ x :: xs)) as [Hy|Hy].
    + apply Hbest, beats_false in Hy. lia.
    + rewrite count_of_pos in Hy. lia.
  - intros y Hy. apply (beats_false (x :: xs)); [|done].
    apply Hbest, count_of_pos. lia.
Qed.

(** C8. Every mode the module computes is the [mode] above, which returns an
    element of highest frequency and, among the values tied for that
    frequency, the lowest one; the mode of [3,3,5,5] is 3, also where
    [forward] takes it (the window sums [5,3,5,3]) and where [get_segments]
    takes it (a segment with tempo [5,3,5,3]). *)
Theorem mode_lowest_of_most_frequent (l : list Z) :
  l ≠ [] →
  (∃ m, mode l = Ok m ∧ m ∈ l
        ∧ (∀ y, count_of y l ≤ count_of m l)%nat
        ∧ (∀ y, count_of y l = count_of m l → m ≤ y))
  ∧ mode [3;3;5;5] = Ok 3
  ∧ forward {| win_length := 1; hop_length := 1; center := true |}
            [[[5;3;5;3]]] None = Ok ([[3]], None)
  ∧ get_segments [1;1;1;1] 4 [9;9;9;9] 4 [5;3;5;3] 4
    = Ok ([1], 1%nat, [9], 1%nat, [3], 1%nat).
Proof.
  intros Hl. split; [by apply mode_spec|].
  repeat split; vm_compute; reflexivity.
Qed.

Lemma mode_lowest_of_most_frequent_witness :
  ∃ m, mode [3;3;5;5] = Ok m ∧ m ∈ [3;3;5;5]
       ∧ (∀ y, Nat.le (count_of y [3;3;5;5]) (count_of m [3;3;5;5]))
       ∧ (∀ y, count_of y [3;3;5;5] = count_of m [3;3;5;5] → m ≤ y).
Proof.
  apply (mode_lowest_of_most_frequent [3;3;5;5]). discriminate.
Defined.

(** ** The boundary walks of [get_segments] *)

Lemma filter_below_all (rec : list nat) (n : nat) :
  Forall (λ j, j < n)%nat rec → filter (λ j, j < n)%nat rec = rec.
Proof.
  induction 1 as [|j rec Hj _ IH]; [done|].
  by rewrite filter_cons_True, IH.
Qed.

Lemma filter_below_snoc (rec : list nat) (n i : nat) :
  (i ≤ n)%nat →
  filter (λ j, j < i)%nat (rec ++ [n]) = filter (λ j, j < i)%nat rec.
Proof.
  intros Hi. rewrite filter_app, filter_cons_False by lia.
  by rewrite filter_nil, app_nil_r.
Qed.

Lemma most_recent_snoc (rec : list nat) (n i : nat) :
  (i ≤ n)%nat → most_recent (0%nat :: rec ++ [n]) i = most_recent (0%nat :: rec) i.
Proof.
  intros Hi. unfold most_recent.
  by rewrite app_comm_cons, filter_below_snoc.
Qed.

(** When every recorded index is below [n], the list ends with the boundary
    that step [n] of the loop reads through [seq[-1]]. *)
Lemma last_most_recent (sq0 rec : list nat) (n : nat) :
  last sq0 = Some 0%nat →
  Forall (λ j, 0 < j < n)%nat rec →
  last (sq0 ++ rec) = Some (most_recent (0%nat :: rec) n)
  ∧ (most_recent (0%nat :: rec) n ≤ n)%nat.
Proof.
  intros H0 Hrec. unfold most_recent.
  destruct n as [|n].
  - destruct Hrec as [|j rec Hj _]; [|lia].
    rewrite app_nil_r, filter_cons_False by lia. by split.
  - rewrite filter_cons_True by lia.
    rewrite filter_below_all by (eapply Forall_impl; [done|]; simpl; lia).
    rewrite last_app, last_cons, H0.
    destruct (last rec) as [k|] eqn:Hk; simpl; [|split; [done|lia]].
    split; [done|].
    apply last_Some_elem_of in Hk.
    rewrite Forall_forall in Hrec. apply Hrec in Hk. lia.
Qed.

(** The state of a boundary loop after [n] steps, started on a list that
    ends with index 0 over a stream with at least [n] samples.  The last
    conjunct records that the value read through [seq[-1]] is also the value
    of the preceding sample. *)
Lemma boundary_loop_records (x : list Z) (n : nat) (sq0 : list nat) :
  (n ≤ length x)%nat →
  last sq0 = Some 0%nat →
  ∃ rec, boundary_loop x n sq0 = Ok (sq0 ++ rec)
         ∧ recorded_by_last x n rec
         ∧ ∀ i, (0 < i ≤ n)%nat →
                x !! most_recent (0%nat :: rec) i = x !! (i - 1)%nat.
Proof.
  intros Hn H0. unfold boundary_loop, recorded_by_last.
  induction n as [|n IH].
  - exists []. rewrite app_nil_r. repeat split; try done; lia.
  - destruct IH as (rec & Hloop & [Hrec Hiff] & Hadj); [lia|].
    rewrite seq_S, foldlM_app, Hloop. simpl.
    destruct (last_most_recent sq0 rec n H0 Hrec) as [Hlast Hle].
    set (j := most_recent (0%nat :: rec) n) in *.
    destruct (lookup_lt_is_Some_2 x j) as [a Ha]; [lia|].
    destruct (lookup_lt_is_Some_2 x n) as [b Hb]; [lia|].
    assert (Hnotin : n ∉ rec).
    { intros Hin. rewrite Forall_forall in Hrec. apply Hrec in Hin. lia. }
    assert (Hall : filter (λ k, k < S n)%nat (0%nat :: rec) = 0%nat :: rec).
    { apply filter_below_all. constructor; [lia|].
      eapply Forall_impl; [done|]. simpl. lia. }
    unfold boundary_step, getlast, getitem. rewrite Hlast. simpl.
    rewrite Ha. simpl. rewrite Hb. simpl.
    case_bool_decide as Hab.
    + exists (rec ++ [n]). rewrite <- (assoc_L (++)).
      split; [done|]. split; [split|].
      * apply Forall_app. split.
        -- eapply Forall_impl; [done|]. simpl. lia.
        -- apply Forall_singleton.
           destruct n; [|lia].
           subst j. destruct Hrec as [|k rec Hk _]; [|lia].
           unfold most_recent in Ha. rewrite filter_cons_False in Ha by lia.
           simpl in Ha. congruence.
      * intros i Hi. rewrite most_recent_snoc by lia.
        rewrite elem_of_app, list_elem_of_singleton.
        destruct (decide (i = n)) as [->|Hne].
        -- fold j. rewrite Ha, Hb. split; [congruence|auto].
        -- rewrite <- Hiff by lia. tauto.
      * intros i Hi. destruct (decide (i = S n)) as [->|Hne].
        -- unfold most_recent.
           rewrite app_comm_cons, filter_app, Hall.
           rewrite filter_cons_True, filter_nil by lia.
           rewrite last_snoc. simpl. f_equal. lia.
        -- rewrite most_recent_snoc by lia. apply Hadj. lia.
    + exists rec. split; [done|]. split; [split|].
      * eapply Forall_impl; [done|]. simpl. lia.
      * intros i Hi. destruct (decide (i = n)) as [->|Hne].
        -- fold j. rewrite Ha, Hb. split; [done|congruence].
        -- apply Hiff. lia.
      * intros i Hi. destruct (decide (i = S n)) as [->|Hne].
        -- replace (S n - 1)%nat with n by lia.
           rewrite Hb, <- Hab, <- Ha.
           unfold most_recent. rewrite Hall. subst j. unfold most_recent.
           destruct n as [|n'].
           ++ destruct Hrec as [|k rec Hk _]; [done|lia].
           ++ rewrite filter_below_all; [done|]. constructor; [lia|].
              eapply Forall_impl; [done|]. simpl. lia.
        -- apply Hadj. lia.
Qed.

Lemma boundary_walk_records (x : list Z) (n : nat) (sq0 : list nat) :
  (n ≤ length x)%nat →
  last sq0 = Some 0%nat →
  ∃ rec, boundary_walk x n sq0 = Ok (sq0 ++ rec ++ [n])
         ∧ recorded_by_last x n rec.
Proof.
  intros Hn H0.
  destruct (boundary_loop_records x n sq0 Hn H0) as (rec & Hloop & Hrec & _).
  exists rec. unfold boundary_walk. rewrite Hloop. simpl.
  by rewrite <- (assoc_L (++)).
Qed.

(** What the comparison with the last recorded boundary amounts to: between
    two recorded boundaries the stream is constant, so the value read through
    [seq[-1]] at step [i] is the value of sample [i - 1]. *)
Lemma last_recorded_is_previous (x : list Z) (n : nat) (sq0 : list nat) :
  (n ≤ length x)%nat →
  last sq0 = Some 0%nat →
  ∃ rec, boundary_walk x n sq0 = Ok (sq0 ++ rec ++ [n])
         ∧ ∀ i, (0 < i < n)%nat →
                x !! most_recent (0%nat :: rec) i = x !! (i - 1)%nat.
Proof.
  intros Hn H0.
  destruct (boundary_loop_records x n sq0 Hn H0) as (rec & Hloop & _ & Hadj).
  exists rec. unfold boundary_walk. rewrite Hloop. simpl.
  rewrite <- (assoc_L (++)). split; [done|].
  intros i Hi. apply Hadj. lia.
Qed.

(** C7. In the boundary walks of [get_segments], over the durations and
    independently over the score, an index [i] below the stream's valid
    length is recorded exactly when the value at [i] differs from the value
    at the most recently recorded boundary index; each walk starts from
    recorded index 0 and ends by appending the stream's valid length. *)
Theorem get_segments_boundary_walks (durations : list Z)
    (durations_lengths : nat) (score : list Z) (score_lengths : nat) :
  (durations_lengths ≤ length durations)%nat →
  (score_lengths ≤ length score)%nat →
  ∃ rec_d rec_s,
    let sq_d := [0%nat] ++ rec_d ++ [durations_lengths] in
    let sq_s := [0%nat] ++ rec_s ++ [score_lengths] in
    boundary_walk durations durations_lengths [0%nat] = Ok sq_d
    ∧ boundary_walk score score_lengths (sq_d ++ [0%nat]) = Ok (sq_d ++ sq_s)
    ∧ boundaries durations durations_lengths score score_lengths
      = Ok (sorted_set (sq_d ++ sq_s))
    ∧ recorded_by_last durations durations_lengths rec_d
    ∧ recorded_by_last score score_lengths rec_s.
Proof.
  intros Hd Hs.
  destruct (boundary_walk_records durations durations_lengths [0%nat])
    as (rec_d & Hwd & Hrd); [done..|].
  destruct (boundary_walk_records score score_lengths
              (([0%nat] ++ rec_d ++ [durations_lengths]) ++ [0%nat]))
    as (rec_s & Hws & Hrs); [done|apply last_snoc|].
  exists rec_d, rec_s. cbv zeta.
  assert (Hws' : boundary_walk score score_lengths
                   (([0%nat] ++ rec_d ++ [durations_lengths]) ++ [0%nat])
                 = Ok (([0%nat] ++ rec_d ++ [durations_lengths])
                       ++ [0%nat] ++ rec_s ++ [score_lengths])).
  { rewrite Hws. f_equal. by rewrite <- (assoc_L (++)). }
  split; [done|]. split; [done|]. split; [|done].
  unfold boundaries. rewrite Hwd. cbn [mbind result_bind].
  rewrite Hws'. done.
Qed.

Lemma get_segments_boundary_walks_witness :
  ∃ rec_d rec_s,
    let sq_d := [0%nat] ++ rec_d ++ [5%nat] in
    let sq_s := [0%nat] ++ rec_s ++ [5%nat] in
    boundary_walk [1;1;2;2;2] 5 [0%nat] = Ok sq_d
    ∧ boundary_walk [9;9;9;8;8] 5 (sq_d ++ [0%nat]) = Ok (sq_d ++ sq_s)
    ∧ boundaries [1;1;2;2;2] 5 [9;9;9;8;8] 5 = Ok (sorted_set (sq_d ++ sq_s))
    ∧ recorded_by_last [1;1;2;2;2] 5 rec_d
    ∧ recorded_by_last [9;9;9;8;8] 5 rec_s.
Proof.
  apply (get_segments_boundary_walks [1;1;2;2;2] 5 [9;9;9;8;8] 5);
    simpl; lia.
Defined.

(** ** [get_segments] on the specification's scenario *)

(** C3. For durations [1,1,2,2,2] and score [9,9,9,8,8], both of valid length
    5, and any five tempo values, the boundary list is [0,2,3,5] and three
    segments come out: durations 1, 2, 2, scores 9, 9, 8, and the tempo modes
    of the slices [0,2), [2,3) and [3,5). *)
Theorem get_segments_union_scenario (t0 t1 t2 t3 t4 : Z) (tempo_lengths : nat) :
  ∃ m0 m1 m2,
    mode [t0; t1] = Ok m0 ∧ mode [t2] = Ok m1 ∧ mode [t3; t4] = Ok m2
    ∧ boundaries [1;1;2;2;2] 5 [9;9;9;8;8] 5 = Ok [0; 2; 3; 5]%nat
    ∧ get_segments [1;1;2;2;2] 5 [9;9;9;8;8] 5 [t0;t1;t2;t3;t4] tempo_lengths
      = Ok ([1;2;2], 3%nat, [9;9;8], 3%nat, [m0;m1;m2], 3%nat).
Proof.
  do 3 eexists.
  split; [reflexivity|]. split; [reflexivity|]. split; [reflexivity|].
  assert (Hb : boundaries [1;1;2;2;2] 5 [9;9;9;8;8] 5 = Ok [0; 2; 3; 5]%nat)
    by (vm_compute; reflexivity).
  split; [exact Hb|].
  unfold get_segments. rewrite Hb. reflexivity.
Qed.

(** ** Zero valid lengths *)

(** C4, as amended. When the valid lengths of durations and score are both 0
    (in particular when all three valid lengths are 0), [get_segments]
    returns no segment, all three counts are 0, and nothing is indexed,
    whatever the tempo length and the buffers are. *)
Theorem get_segments_empty (durations score tempo : list Z)
    (durations_lengths score_lengths tempo_lengths : nat) :
  durations_lengths = 0%nat →
  score_lengths = 0%nat →
  get_segments durations durations_lengths score score_lengths
               tempo tempo_lengths
  = Ok ([], 0%nat, [], 0%nat, [], 0%nat).
Proof. intros -> ->. reflexivity. Qed.

Lemma get_segments_empty_witness :
  get_segments [] 0 [] 0 [] 0 = Ok ([], 0%nat, [], 0%nat, [], 0%nat).
Proof. apply (get_segments_empty [] [] [] 0 0 0); reflexivity. Defined.

(** C4, as stated, fails: one valid length being 0 does not empty the
    result.  With durations length 0 and score length 2 a segment [0,2) is
    produced; with tempo length 0 the result is that of any other tempo
    length. *)
Lemma get_segments_zero_length_counterexample :
  get_segments [1;1] 0 [9;9] 2 [5;5] 2
  = Ok ([1], 1%nat, [9], 1%nat, [5], 1%nat)
  ∧ get_segments [1;1] 2 [9;9] 2 [5;5] 0
    = Ok ([1], 1%nat, [9], 1%nat, [5], 1%nat)
  ∧ ¬ (∀ (durations score tempo : list Z)
         (durations_lengths score_lengths tempo_lengths : nat),
         durations_lengths = 0%nat ∨ score_lengths = 0%nat
         ∨ tempo_lengths = 0%nat →
         get_segments durations durations_lengths score score_lengths
                      tempo tempo_lengths
         = Ok ([], 0%nat, [], 0%nat, [], 0%nat)).
Proof.
  split; [vm_compute; reflexivity|]. split; [vm_compute; reflexivity|].
  intros H. specialize (H [1;1] [9;9] [5;5] 0%nat 2%nat 2%nat (or_introl eq_refl)).
  vm_compute in H. discriminate H.
Qed.

(** ** The tempo stream *)

(** The durations and scores gathered by the segment loop do not depend on
    the tempo stream. *)
Lemma segment_loop_tempo (durations score tempo tempo' : list Z)
    (sq : list nat) (idx : list nat) (a1 a2 a3 a3' r1 r2 r3 r1' r2' r3' : list Z) :
  foldlM (segment_step durations score tempo sq) (a1, a2, a3) idx
  = Ok (r1, r2, r3) →
  foldlM (segment_step durations score tempo' sq) (a1, a2, a3') idx
  = Ok (r1', r2', r3') →
  r1 = r1' ∧ r2 = r2'.
Proof.
  revert a1 a2 a3 a3'.
  induction idx as [|i idx IH]; intros a1 a2 a3 a3'; simpl.
  - intros [= <- <- _] [= <- <- _]. done.
  - destruct (getitem sq i) as [l|]; simpl; [|done].
    destruct (getitem sq (i + 1)) as [r|]; simpl; [|done].
    destruct (mode (slice durations l r)) as [md|]; simpl; [|done].
    destruct (mode (slice score l r)) as [ms|]; simpl; [|done].
    destruct (mode (slice tempo l r)) as [mt|]; simpl; [|done].
    destruct (mode (slice tempo' l r)) as [mt'|]; simpl; [|done].
    apply IH.
Qed.

(** C10. [get_segments] never reads [tempo_lengths]: two calls that differ in
    it alone return the same thing.  The tempo stream adds no boundary: the
    boundary list is computed from durations and score alone, and two calls
    that differ in the tempo stream and its length, when both return, return
    the same segment durations, the same segment scores and the same three
    counts, one less than the number of boundaries. *)
Theorem get_segments_tempo_independent
    (durations score tempo tempo' : list Z)
    (durations_lengths score_lengths tempo_lengths tempo_lengths' : nat) :
  get_segments durations durations_lengths score score_lengths
               tempo tempo_lengths'
  = get_segments durations durations_lengths score score_lengths
                 tempo tempo_lengths
  ∧ ∀ (sd ss st sd' ss' st' : list Z) (n1 n2 n3 n1' n2' n3' : nat),
      get_segments durations durations_lengths score score_lengths
                   tempo tempo_lengths = Ok (sd, n1, ss, n2, st, n3) →
      get_segments durations durations_lengths score score_lengths
                   tempo' tempo_lengths' = Ok (sd', n1', ss', n2', st', n3') →
      sd = sd' ∧ ss = ss'
      ∧ ∃ sq, boundaries durations durations_lengths score score_lengths
              = Ok sq
              ∧ n1 = (length sq - 1)%nat
              ∧ n2 = n1 ∧ n3 = n1 ∧ n1' = n1 ∧ n2' = n1 ∧ n3' = n1.
Proof.
  split; [reflexivity|].
  intros sd ss st sd' ss' st' n1 n2 n3 n1' n2' n3'. unfold get_segments.
  destruct (boundaries durations durations_lengths score score_lengths)
    as [sq|]; simpl; [|done].
  destruct (foldlM (segment_step durations score tempo sq) _ _)
    as [[[r1 r2] r3]|] eqn:Hl; simpl; [|done].
  destruct (foldlM (segment_step durations score tempo' sq) _ _)
    as [[[r1' r2'] r3']|] eqn:Hl'; simpl; [|done].
  intros [= <- <- <- <- <- <-] [= <- <- <- <- <- <-].
  destruct (segment_loop_tempo _ _ _ _ _ _ _ _ _ _ _ _ _ _ _ _ Hl Hl')
    as [-> ->].
  repeat split. exists sq. done.
Qed.

Lemma get_segments_tempo_independent_witness :
  [1; 2; 2] = [1; 2; 2] ∧ [9; 9; 8] = [9; 9; 8]
  ∧ ∃ sq, boundaries [1;1;2;2;2] 5 [9;9;9;8;8] 5 = Ok sq
          ∧ 3%nat = (length sq - 1)%nat
          ∧ 3%nat = 3%nat ∧ 3%nat = 3%nat ∧ 3%nat = 3%nat ∧ 3%nat = 3%nat
          ∧ 3%nat = 3%nat.
Proof.
  apply (proj2 (get_segments_tempo_independent
                  [1;1;2;2;2] [9;9;9;8;8] [4;4;4;4;4] [7;7;6;6;6] 5 5 5 2)
               [1;2;2] [9;9;8] [4;4;4] [1;2;2] [9;9;8] [7;6;6]
               3%nat 3%nat 3%nat 3%nat 3%nat 3%nat);
    vm_compute; reflexivity.
Defined.

(** ** What [get_segments] reads of its buffers *)

Section prefix.
(** The largest index bound that the two walks can reach. *)
Variable m : nat.

Lemma getitem_take {A : Type} (x : list A) (i : nat) :
  (i < m)%nat → getitem (take m x) i = getitem x i.
Proof. intros Hi. unfold getitem. by rewrite lookup_take_lt. Qed.

Lemma slice_take {A : Type} (x : list A) (l r : nat) :
  (r ≤ m)%nat → slice (take m x) l r = slice x l r.
Proof.
  intros Hr. unfold slice.
  destruct (decide (l ≤ r)%nat) as [Hlr|Hlr].
  - rewrite !take_drop_commute, take_take. do 2 f_equal. lia.
  - by replace (r - l)%nat with 0%nat by lia.
Qed.

Lemma boundary_step_take (x : list Z) (sq : list nat) (i : nat) :
  (i < m)%nat →
  (∀ j, last sq = Some j → (j < m)%nat) →
  boundary_step (take m x) sq i = boundary_step x sq i.
Proof.
  intros Hi Hlast. unfold boundary_step, getlast.
  destruct (last sq) as [j|]; simpl; [|done].
  rewrite !getitem_take by auto. done.
Qed.

Lemma boundary_step_last (x : list Z) (sq sq' : list nat) (i : nat) :
  boundary_step x sq i = Ok sq' →
  (i < m)%nat →
  (∀ j, last sq = Some j → (j < m)%nat) →
  ∀ j, last sq' = Some j → (j < m)%nat.
Proof.
  unfold boundary_step.
  destruct (getlast sq) as [k|]; simpl; [|done].
  destruct (getitem x k) as [a|]; simpl; [|done].
  destruct (getitem x i) as [b|]; simpl; [|done].
  case_bool_decide; intros [= <-] Hi Hlast j; [|by auto].
  rewrite last_snoc. by intros [= <-].
Qed.

Lemma boundary_step_elem_of (x : list Z) (sq sq' : list nat) (i : nat) :
  boundary_step x sq i = Ok sq' →
  ∀ j, j ∈ sq' → j ∈ sq ∨ j = i.
Proof.
  unfold boundary_step.
  destruct (getlast sq) as [k|]; simpl; [|done].
  destruct (getitem x k) as [a|]; simpl; [|done].
  destruct (getitem x i) as [b|]; simpl; [|done].
  case_bool_decide; intros [= <-] j; [|by auto].
  rewrite elem_of_app, list_elem_of_singleton. done.
Qed.

Lemma boundary_fold_take (x : list Z) (idx : list nat) (sq : list nat) :
  Forall (λ i, i < m)%nat idx →
  (∀ j, last sq = Some j → (j < m)%nat) →
  foldlM (boundary_step (take m x)) sq idx = foldlM (boundary_step x) sq idx.
Proof.
  intros Hidx. revert sq.
  induction Hidx as [|i idx Hi _ IH]; intros sq Hlast; simpl; [done|].
  rewrite boundary_step_take by done.
  destruct (boundary_step x sq i) as [sq'|] eqn:Hstep; simpl; [|done].
  apply IH. by eapply boundary_step_last.
Qed.

Lemma boundary_fold_bound (x : list Z) (idx : list nat) (sq sq' : list nat) :
  foldlM (boundary_step x) sq idx = Ok sq' →
  Forall (λ i, i ≤ m)%nat idx →
  Forall (λ j, j ≤ m)%nat sq →
  Forall (λ j, j ≤ m)%nat sq'.
Proof.
  revert sq. induction idx as [|i idx IH]; intros sq; simpl.
  - by intros [= <-].
  - destruct (boundary_step x sq i) as [sq1|] eqn:Hstep; simpl; [|done].
    intros Hfold [Hi Hidx]%Forall_cons Hsq.
    apply (IH sq1); [done..|].
    apply Forall_forall. intros j Hj.
    destruct (boundary_step_elem_of _ _ _ _ Hstep j Hj) as [Hin| ->]; [|done].
    rewrite Forall_forall in Hsq. auto.
Qed.

Lemma boundary_walk_take (x : list Z) (n : nat) (sq : list nat) :
  (n ≤ m)%nat →
  last sq = Some 0%nat →
  boundary_walk (take m x) n sq = boundary_walk x n sq.
Proof.
  intros Hn Hlast. unfold boundary_walk, boundary_loop.
  destruct n as [|n]; [done|].
  rewrite boundary_fold_take; [done| |].
  - apply Forall_seq. intros. lia.
  - rewrite Hlast. intros j [= <-]. lia.
Qed.

Lemma boundary_walk_bound (x : list Z) (n : nat) (sq sq' : list nat) :
  boundary_walk x n sq = Ok sq' →
  (n ≤ m)%nat →
  Forall (λ j, j ≤ m)%nat sq →
  Forall (λ j, j ≤ m)%nat sq'.
Proof.
  unfold boundary_walk, boundary_loop.
  destruct (foldlM _ _ _) as [sq1|] eqn:Hfold; simpl; [|done].
  intros [= <-] Hn Hsq. apply Forall_app. split; [|by apply Forall_singleton].
  eapply boundary_fold_bound; [done| |done].
  apply Forall_seq. intros. lia.
Qed.

Lemma elem_of_sorted_set (sq : list nat) (j : nat) :
  j ∈ sorted_set sq ↔ j ∈ sq.
Proof.
  unfold sorted_set. rewrite merge_sort_Permutation, elem_of_elements.
  apply elem_of_list_to_set.
Qed.

Lemma boundaries_take (durations score : list Z)
    (durations_lengths score_lengths : nat) :
  (durations_lengths ≤ m)%nat → (score_lengths ≤ m)%nat →
  boundaries (take m durations) durations_lengths
             (take m score) score_lengths
  = boundaries durations durations_lengths score score_lengths.
Proof.
  intros Hd Hs. unfold boundaries.
  rewrite boundary_walk_take by done.
  destruct (boundary_walk durations _ _) as [sq|]; simpl; [|done].
  rewrite boundary_walk_take by (done || apply last_snoc). done.
Qed.

Lemma boundaries_bound (durations score : list Z)
    (durations_lengths score_lengths : nat) (sq : list nat) :
  boundaries durations durations_lengths score score_lengths = Ok sq →
  (durations_lengths ≤ m)%nat → (score_lengths ≤ m)%nat →
  Forall (λ j, j ≤ m)%nat sq.
Proof.
  unfold boundaries. intros Hb Hd Hs.
  destruct (boundary_walk durations _ _) as [sq1|] eqn:H1; simpl in Hb;
    [|done].
  destruct (boundary_walk score _ _) as [sq2|] eqn:H2; simpl in Hb; [|done].
  injection Hb as <-.
  assert (Hsq2 : Forall (λ j, j ≤ m)%nat sq2).
  { eapply boundary_walk_bound; [exact H2|done|].
    apply Forall_app. split; [|apply Forall_singleton; lia].
    eapply boundary_walk_bound; [exact H1|done|].
    apply Forall_singleton. lia. }
  rewrite Forall_forall in Hsq2. apply Forall_forall.
  intros j Hj. apply Hsq2. by apply (proj1 (elem_of_sorted_set sq2 j)).
Qed.

Lemma segment_step_take (durations score tempo : list Z) (sq : list nat)
    (acc : list Z * list Z * list Z) (i : nat) :
  Forall (λ j, j ≤ m)%nat sq →
  segment_step (take m durations) (take m score) (take m tempo) sq acc i
  = segment_step durations score tempo sq acc i.
Proof.
  intros Hsq. unfold segment_step. destruct acc as [[a1 a2] a3].
  destruct (getitem sq i) as [l|]; simpl; [|done].
  unfold getitem at 1 2.
  destruct (sq !! (i + 1)%nat) as [r|] eqn:Hr; simpl; [|done].
  assert (r ≤ m)%nat.
  { rewrite Forall_forall in Hsq. eapply Hsq, list_elem_of_lookup_2, Hr. }
  rewrite !slice_take by done. done.
Qed.

Lemma get_segments_take (durations score tempo : list Z)
    (durations_lengths score_lengths tempo_lengths : nat) :
  (durations_lengths ≤ m)%nat → (score_lengths ≤ m)%nat →
  get_segments (take m durations) durations_lengths
               (take m score) score_lengths (take m tempo) tempo_lengths
  = get_segments durations durations_lengths score score_lengths
                 tempo tempo_lengths.
Proof.
  intros Hd Hs. unfold get_segments. rewrite boundaries_take by done.
  destruct (boundaries durations _ _ _) as [sq|] eqn:Hb; simpl; [|done].
  rewrite (foldlM_ext_in _ (segment_step durations score tempo sq)); [done|].
  intros acc i _. apply segment_step_take. by eapply boundaries_bound.
Qed.
End prefix.

Lemma take_agree {A : Type} (m : nat) (x x' : list A) :
  (∀ i, (i < m)%nat → x !! i = x' !! i) → take m x = take m x'.
Proof.
  intros H. apply list_eq. intros i.
  destruct (decide (i < m)%nat).
  - rewrite !lookup_take_lt by done. auto.
  - rewrite !lookup_take_ge by lia. done.
Qed.

(** C5, as amended. Two calls of [get_segments] with the same three lengths
    whose durations, score and tempo buffers agree at every index below
    max(durations_lengths, score_lengths) return the same result (values,
    counts, or the same exception): nothing at or beyond that bound is read. *)
Theorem get_segments_reads_prefix
    (durations score tempo durations' score' tempo' : list Z)
    (durations_lengths score_lengths tempo_lengths : nat) :
  let m := (durations_lengths `max` score_lengths)%nat in
  (∀ i, (i < m)%nat → durations !! i = durations' !! i) →
  (∀ i, (i < m)%nat → score !! i = score' !! i) →
  (∀ i, (i < m)%nat → tempo !! i = tempo' !! i) →
  get_segments durations durations_lengths score score_lengths
               tempo tempo_lengths
  = get_segments durations' durations_lengths score' score_lengths
                 tempo' tempo_lengths.
Proof.
  intros m Hd Hs Ht.
  rewrite <- (get_segments_take m durations) by lia.
  rewrite <- (get_segments_take m durations') by lia.
  by rewrite (take_agree m _ _ Hd), (take_agree m _ _ Hs), (take_agree m _ _ Ht).
Qed.

Lemma get_segments_reads_prefix_witness :
  get_segments [1;1;2;7] 3 [9;8;8;7] 2 [5;5;6;7] 1
  = get_segments [1;1;2;0] 3 [9;8;8;0] 2 [5;5;6;0] 1.
Proof.
  apply (get_segments_reads_prefix [1;1;2;7] [9;8;8;7] [5;5;6;7]
           [1;1;2;0] [9;8;8;0] [5;5;6;0] 3 2 1);
    intros [|[|[|i]]] Hi; simpl in *; try reflexivity; lia.
Defined.

(** C5, as stated, fails: the two calls below agree on the lengths and on
    every element below each stream's own valid length, and differ only in
    the durations sample at index 1, past the durations length 1; the
    segment [1,2) that the score length 2 brings in reports that sample.
    The same happens to a tempo sample past the tempo length. *)
Lemma get_segments_padding_counterexample :
  (∀ i, (i < 1)%nat → [1;7] !! i = [1;8] !! i)
  ∧ get_segments [1;7] 1 [9;9] 2 [5;5] 2
    = Ok ([1;7], 2%nat, [9;9], 2%nat, [5;5], 2%nat)
  ∧ get_segments [1;8] 1 [9;9] 2 [5;5] 2
    = Ok ([1;8], 2%nat, [9;9], 2%nat, [5;5], 2%nat)
  ∧ get_segments [1;7] 1 [9;9] 2 [5;5] 2
    ≠ get_segments [1;8] 1 [9;9] 2 [5;5] 2
  ∧ (∀ i, (i < 1)%nat → [5;6] !! i = [5;7] !! i)
  ∧ get_segments [1;2] 2 [9;9] 2 [5;6] 1
    ≠ get_segments [1;2] 2 [9;9] 2 [5;7] 1.
Proof.
  split; [intros [|i] Hi; [reflexivity|lia]|].
  split; [vm_compute; reflexivity|]. split; [vm_compute; reflexivity|].
  split; [vm_compute; discriminate|].
  split; [intros [|i] Hi; [reflexivity|lia]|].
  vm_compute; discriminate.
Qed.

(** ** The centre padding of [forward] *)

Section slices.
Context {A : Type}.
Implicit Types x src : list A.

Lemma lookup_slice x (l r k : nat) :
  slice x l r !! k = if decide (k < r - l)%nat then x !! (l + k)%nat else None.
Proof. unfold slice. by rewrite lookup_take, lookup_drop. Qed.

Lemma length_slice x (l r : nat) :
  length (slice x l r) = ((r - l) `min` (length x - l))%nat.
Proof. unfold slice. by rewrite length_take, length_drop. Qed.

(** The buffer after [x[lo:hi] = src]. *)
Lemma lookup_assigned x src (lo hi i : nat) :
  length src = (hi - lo)%nat → (lo ≤ hi ≤ length x)%nat →
  (take lo x ++ src ++ drop hi x) !! i
  = if decide (i < lo)%nat then x !! i
    else if decide (i < hi)%nat then src !! (i - lo)%nat
    else x !! i.
Proof.
  intros Hsrc Hlo.
  assert (Htake : length (take lo x) = lo) by (rewrite length_take; lia).
  repeat case_decide.
  - rewrite lookup_app_l, lookup_take_lt by lia. done.
  - rewrite lookup_app_r, Htake by lia.
    rewrite lookup_app_l by lia. done.
  - rewrite lookup_app_r, Htake by lia.
    rewrite lookup_app_r, Hsrc by lia.
    rewrite lookup_drop. f_equal. lia.
Qed.

Lemma length_assigned x src (lo hi : nat) :
  length src = (hi - lo)%nat → (lo ≤ hi ≤ length x)%nat →
  length (take lo x ++ src ++ drop hi x) = length x.
Proof.
  intros Hsrc Hlo. rewrite !length_app, length_take, length_drop. lia.
Qed.

(** One item through the padding step: [z] is the row of zeros, [N] the
    number of samples of the item and [x2] the buffer after the constant
    padding and the two assignments. *)
Lemma center_padding_item (z : A) (pad N : nat) x :
  length x = N →
  let L := (N + 2 * pad)%nat in
  let x0 := replicate pad z ++ x ++ replicate pad z in
  ∃ x1 x2,
    setitem_slice x0 0 pad (slice x0 pad (2 * pad)) = Ok x1
    ∧ setitem_slice x1 (L - pad) L (slice x1 (L - 2 * pad) (L - pad)) = Ok x2
    ∧ length x2 = L
    ∧ slice x2 0 pad = slice x2 pad (2 * pad)
    ∧ slice x2 (L - pad) L = slice x2 (L - 2 * pad) (L - pad).
Proof.
  intros HN L x0.
  set (x1 := take 0 x0 ++ slice x0 pad (2 * pad) ++ drop pad x0).
  set (x2 := take (L - pad) x1 ++ slice x1 (L - 2 * pad) (L - pad)
             ++ drop L x1).
  assert (H0 : length x0 = L).
  { unfold x0. rewrite !length_app, !length_replicate. lia. }
  assert (Hs1 : length (slice x0 pad (2 * pad)) = (pad - 0)%nat).
  { rewrite length_slice. lia. }
  assert (H1 : length x1 = L).
  { unfold x1. rewrite length_assigned; [done..|lia]. }
  assert (Hx1 : ∀ i, x1 !! i = if decide (i < pad)%nat
                               then x0 !! (pad + i)%nat else x0 !! i).
  { intros i. unfold x1. rewrite lookup_assigned; [|done|lia].
    rewrite lookup_slice. repeat case_decide; try lia; [|done].
    f_equal. lia. }
  assert (Hs2 : length (slice x1 (L - 2 * pad) (L - pad))
                = (L - (L - pad))%nat).
  { rewrite length_slice. lia. }
  assert (H2 : length x2 = L).
  { unfold x2. rewrite length_assigned; [done..|lia]. }
  assert (Hx2 : ∀ i, x2 !! i = if decide (i < L - pad)%nat then x1 !! i
                               else if decide (i < L)%nat
                                    then x1 !! (i - pad)%nat
                                    else x1 !! i).
  { intros i. unfold x2. rewrite lookup_assigned; [|done|lia].
    rewrite lookup_slice. repeat case_decide; try lia; [done| |done].
    f_equal. lia. }
  exists x1, x2. split.
  { unfold setitem_slice. rewrite bool_decide_eq_true_2; [done|].
    rewrite Hs1, length_slice. lia. }
  split.
  { unfold setitem_slice. rewrite bool_decide_eq_true_2; [done|].
    rewrite Hs2, length_slice. lia. }
  split; [done|].
  clearbody x2 x1 x0.
  split; apply list_eq; intros k; rewrite !lookup_slice.
  - repeat case_decide; try lia; [|done].
    rewrite !Hx2. repeat case_decide; try lia.
    all: rewrite !Hx1; repeat case_decide; try lia; f_equal; lia.
  - repeat case_decide; try lia; [|done].
    rewrite !Hx2. repeat case_decide; try lia.
    all: f_equal; lia.
Qed.
End slices.

Lemma mapM_result_Forall2 {A B : Type} (f : A → result B) (P : A → B → Prop)
    (l : list A) :
  Forall (λ a, ∃ b, f a = Ok b ∧ P a b) l →
  ∃ bs, mapM_result f l = Ok bs ∧ Forall2 P l bs.
Proof.
  induction 1 as [|a l (b & Hb & HP) _ (bs & Hbs & Hall)]; simpl.
  - exists []. by split.
  - exists (b :: bs). rewrite Hb. simpl. rewrite Hbs. simpl.
    split; [done|]. by constructor.
Qed.

Lemma center_padding_batch (pad N label_dim : nat)
    (input : list (list (list Z))) :
  Forall (λ x, length x = N) input →
  ∃ padded,
    center_padding pad (N + 2 * pad) label_dim input = Ok padded
    ∧ length padded = length input
    ∧ Forall (edges_copied pad (N + 2 * pad)) padded.
Proof.
  intros Hshape. unfold center_padding, copy_slice.
  set (L := (N + 2 * pad)%nat).
  set (step2 := λ x : list (list Z),
         setitem_slice x (L - pad) L (slice x (L - 2 * pad) (L - pad))).
  destruct (mapM_result_Forall2
              (λ x, setitem_slice x 0 pad (slice x pad (2 * pad)))
              (λ _ x1, ∃ x2, step2 x1 = Ok x2 ∧ edges_copied pad L x2)
              (pad_constant pad label_dim input))
    as (input1 & Hstep1 & Hall1).
  { unfold pad_constant. apply Forall_fmap.
    eapply Forall_impl; [exact Hshape|]. intros x Hx. simpl.
    destruct (center_padding_item (replicate label_dim 0) pad N x Hx)
      as (x1 & x2 & H1 & H2 & Hlen & Hfront & Hback).
    exists x1. split; [exact H1|]. exists x2. by split. }
  rewrite Hstep1. simpl.
  destruct (mapM_result_Forall2 step2 (λ _ x2, edges_copied pad L x2) input1)
    as (input2 & Hstep2 & Hall2).
  { eapply Forall2_Forall_r; [exact Hall1|].
    apply Forall_true. intros x0 x1 (x2 & H2 & Hx2). by exists x2. }
  exists input2. split; [exact Hstep2|]. split.
  - rewrite <- (Forall2_length _ _ _ Hall2), <- (Forall2_length _ _ _ Hall1).
    unfold pad_constant. by rewrite length_fmap.
  - eapply Forall2_Forall_r; [exact Hall2|].
    apply Forall_true. auto.
Qed.

(** C9. With [center] set, the padding step of [forward] succeeds on a batch
    whose items all have [input.size(1)] samples, and in every item of the
    padded buffer the first [pad = win_length // 2] positions equal the
    positions [pad] to [2 * pad - 1], and the last [pad] positions equal the
    [pad] positions before them. *)
Theorem center_padding_copies_edges (self : FrameLabelAggregate)
    (input : list (list (list Z))) :
  Forall (λ x, length x = size1 input) input →
  let pad := (win_length self / 2)%nat in
  let max_length := (size1 input + 2 * pad)%nat in
  ∃ padded,
    center_padding pad max_length (size2 input) input = Ok padded
    ∧ length padded = length input
    ∧ ∀ p, p ∈ padded →
           length p = max_length
           ∧ slice p 0 pad = slice p pad (2 * pad)
           ∧ slice p (max_length - pad) max_length
             = slice p (max_length - 2 * pad) (max_length - pad).
Proof.
  intros Hshape pad max_length.
  destruct (center_padding_batch pad (size1 input) (size2 input) input Hshape)
    as (padded & Hpad & Hlen & Hall).
  exists padded. split; [exact Hpad|]. split; [exact Hlen|].
  intros p Hp. rewrite Forall_forall in Hall. exact (Hall p Hp).
Qed.

Lemma center_padding_copies_edges_witness :
  ∃ padded,
    center_padding 2 5 1 [[[7]]] = Ok padded
    ∧ length padded = 1%nat
    ∧ ∀ p, p ∈ padded →
           length p = 5%nat
           ∧ slice p 0 2 = slice p 2 4
           ∧ slice p 3 5 = slice p 1 3.
Proof.
  apply (center_padding_copies_edges
           {| win_length := 4; hop_length := 2; center := true |} [[[7]]]).
  repeat constructor.
Defined.

Example center_padding_short :
  center_padding 2 5 1 [[[7]]] = Ok [[[7]; [0]; [7]; [0]; [7]]].
Proof. reflexivity. Qed.

(** ** [forward] with centring *)

Lemma mapM_result_length {A B : Type} (f : A → result B) (l : list A)
    (bs : list B) :
  mapM_result f l = Ok bs → length bs = length l.
Proof.
  revert bs. induction l as [|a l IH]; intros bs; simpl.
  - by intros [= <-].
  - destruct (f a) as [b|]; simpl; [|done].
    destruct (mapM_result f l) as [bs'|]; simpl; [|done].
    intros [= <-]. simpl. by rewrite (IH bs').
Qed.

Lemma mapM_result_Forall {A B : Type} (f : A → result B) (P : B → Prop)
    (l : list A) (bs : list B) :
  mapM_result f l = Ok bs →
  Forall (λ a, ∀ b, f a = Ok b → P b) l →
  Forall P bs.
Proof.
  intros Hm Hall. revert bs Hm.
  induction Hall as [|a l Ha _ IH]; intros bs; simpl.
  - by intros [= <-].
  - destruct (f a) as [b|]; simpl; [|done].
    destruct (mapM_result f l) as [bs'|]; simpl; [|done].
    intros [= <-]. constructor; auto.
Qed.

Lemma mapM_result_seq {B : Type} (f : nat → result B) (P : B → Prop)
    (n : nat) :
  (∀ i, (i < n)%nat → ∃ b, f i = Ok b ∧ P b) →
  ∃ bs, mapM_result f (seq 0 n) = Ok bs ∧ length bs = n ∧ Forall P bs.
Proof.
  intros Hf.
  destruct (mapM_result_Forall2 f (λ _ b, P b) (seq 0 n)) as (bs & Hbs & Hall).
  { apply Forall_seq. intros i Hi. apply Hf. lia. }
  exists bs. split; [done|]. split.
  - by rewrite (mapM_result_length _ _ _ Hbs), length_seq.
  - eapply Forall2_Forall_r; [exact Hall|]. apply Forall_true. auto.
Qed.

(** A strided view all of whose reads fall inside the storage exists and has
    the sizes asked for. *)
Lemma as_strided_ok (storage : list Z) (n0 n1 n2 n3 s0 s1 s2 s3 : nat) :
  (∀ b f w d, (b < n0)%nat → (f < n1)%nat → (w < n2)%nat → (d < n3)%nat →
              (b * s0 + f * s1 + w * s2 + d * s3 < length storage)%nat) →
  ∃ output,
    as_strided storage (n0, n1, n2, n3) (s0, s1, s2, s3) = Ok output
    ∧ length output = n0
    ∧ Forall (λ frames,
        length frames = n1
        ∧ Forall (λ window,
            length window = n2
            ∧ Forall (λ sample : list Z, length sample = n3) window) frames)
        output.
Proof.
  intros Hin. unfold as_strided.
  apply mapM_result_seq. intros b Hb.
  apply mapM_result_seq. intros f Hf.
  apply mapM_result_seq. intros w Hw.
  destruct (mapM_result_seq
              (λ d, match storage !! (b * s0 + f * s1 + w * s2 + d * s3)%nat
                    with Some v => Ok v | None => Raise RuntimeError end)
              (λ _, True) n3) as (sample & Hs & Hlen & _).
  { intros d Hd.
    destruct (lookup_lt_is_Some_2 storage (b * s0 + f * s1 + w * s2 + d * s3))
      as [v Hv]; [by apply Hin|].
    exists v. by rewrite Hv. }
  by exists sample.
Qed.

Lemma length_sum_dim2 (label_dim : nat) (window : list (list Z)) :
  Forall (λ sample, length sample = label_dim) window →
  length (sum_dim2 label_dim window) = label_dim.
Proof.
  unfold sum_dim2. intros Hw.
  assert (Hacc : length (replicate label_dim 0) = label_dim)
    by apply length_replicate.
  revert Hacc. generalize (replicate label_dim 0).
  induction Hw as [|sample window Hs _ IH]; intros acc Hacc; simpl; [done|].
  apply IH. rewrite length_zip_with. lia.
Qed.

Lemma mode_ok (l : list Z) : l ≠ [] → ∃ m, mode l = Ok m.
Proof. intros (m & Hm & _)%mode_spec. by exists m. Qed.

(** Step 3 succeeds on windows of samples with at least one label channel
    and keeps the batch and frame sizes. *)
Lemma aggregate_ok (label_dim nframe : nat)
    (output : list (list (list (list Z)))) :
  (1 ≤ label_dim)%nat →
  Forall (λ frames,
    length frames = nframe
    ∧ Forall (λ window,
        Forall (λ sample : list Z, length sample = label_dim) window) frames)
    output →
  ∃ labels, aggregate label_dim output = Ok labels
            ∧ length labels = length output
            ∧ Forall (λ row, length row = nframe) labels.
Proof.
  intros HD Hall. unfold aggregate.
  destruct (mapM_result_Forall2
              (mapM_result (λ window, mode (sum_dim2 label_dim window)))
              (λ _ row, length row = nframe) output)
    as (labels & Hl & Hall2).
  { eapply Forall_impl; [exact Hall|]. intros frames [Hlen Hframes]. simpl.
    destruct (mapM_result_Forall2
                (λ window, mode (sum_dim2 label_dim window))
                (λ _ _, True) frames) as (row & Hrow & _).
    { eapply Forall_impl; [exact Hframes|]. intros window Hw. simpl.
      destruct (mode_ok (sum_dim2 label_dim window)) as [m Hm].
      - intros Hnil. apply (f_equal length) in Hnil.
        rewrite length_sum_dim2 in Hnil by done. simpl in Hnil. lia.
      - by exists m. }
    exists row. split; [done|].
    by rewrite (mapM_result_length _ _ _ Hrow). }
  exists labels. split; [done|]. split.
  - by rewrite (mapM_result_length _ _ _ Hl).
  - eapply Forall2_Forall_r; [exact Hall2|]. apply Forall_true. auto.
Qed.

Lemma Forall_slice {A : Type} (Q : A → Prop) (x : list A) (l r : nat) :
  Forall Q x → Forall Q (slice x l r).
Proof. intros Hx. unfold slice. by apply Forall_take, Forall_drop. Qed.

Lemma setitem_slice_Forall {A : Type} (Q : A → Prop) (x src y : list A)
    (lo hi : nat) :
  setitem_slice x lo hi src = Ok y → Forall Q x → Forall Q src → Forall Q y.
Proof.
  unfold setitem_slice. case_bool_decide; [|done]. intros [= <-] Hx Hsrc.
  rewrite !Forall_app. split; [by apply Forall_take|].
  split; [done|by apply Forall_drop].
Qed.

Lemma copy_slice_Forall (Q : list Z → Prop) (lo hi lo' hi' : nat)
    (input output : list (list (list Z))) :
  copy_slice lo hi lo' hi' input = Ok output →
  Forall (Forall Q) input → Forall (Forall Q) output.
Proof.
  unfold copy_slice. intros Hm Hall.
  eapply mapM_result_Forall; [exact Hm|].
  eapply Forall_impl; [exact Hall|]. intros x Hx y Hy. simpl in Hy.
  eapply setitem_slice_Forall; [exact Hy|done|by apply Forall_slice].
Qed.

(** The padding step keeps the label width of every sample. *)
Lemma center_padding_rows (pad max_length label_dim : nat)
    (input padded : list (list (list Z))) :
  center_padding pad max_length label_dim input = Ok padded →
  Forall (Forall (λ r, length r = label_dim)) input →
  Forall (Forall (λ r, length r = label_dim)) padded.
Proof.
  unfold center_padding. intros Hp Hall.
  destruct (copy_slice 0 pad pad (2 * pad) _) as [input1|] eqn:H1;
    simpl in Hp; [|done].
  eapply copy_slice_Forall; [exact Hp|].
  eapply copy_slice_Forall; [exact H1|].
  unfold pad_constant. apply Forall_fmap.
  eapply Forall_impl; [exact Hall|]. intros x Hx. simpl.
  rewrite !Forall_app.
  assert (Forall (λ r : list Z, length r = label_dim)
            (replicate pad (replicate label_dim 0))).
  { apply Forall_replicate. apply length_replicate. }
  done.
Qed.

Lemma length_concat_uniform {A : Type} (n : nat) (l : list (list A)) :
  Forall (λ x, length x = n) l → length (concat l) = (length l * n)%nat.
Proof.
  induction 1 as [|x l Hx _ IH]; simpl; [done|].
  rewrite length_app, IH, Hx. done.
Qed.

Lemma length_storage_of (B L D : nat) (padded : list (list (list Z))) :
  length padded = B →
  Forall (λ x, length x = L) padded →
  Forall (Forall (λ r, length r = D)) padded →
  length (storage_of padded) = (B * L * D)%nat.
Proof.
  intros HB HL HD. unfold storage_of.
  rewrite (length_concat_uniform D).
  - by rewrite (length_concat_uniform L), HB.
  - by apply Forall_concat.
Qed.

(** Every sample of every frame lies inside the padded item: the index
    arithmetic behind the strided view. *)
Lemma frame_index_bound (B L D win hop b f w d : nat) :
  hop ≠ 0%nat → (win ≤ L)%nat →
  (b < B)%nat →
  (f < Z.to_nat ((Z.of_nat L - Z.of_nat win) / Z.of_nat hop + 1))%nat →
  (w < win)%nat → (d < D)%nat →
  (b * (L * D) + f * (hop * D) + w * D + d * 1 < B * L * D)%nat.
Proof.
  intros Hhop Hwin Hb Hf Hw Hd.
  assert (Hfw : (f * hop + w < L)%nat).
  { assert (0 ≤ (Z.of_nat L - Z.of_nat win) / Z.of_nat hop)
      by (apply Z.div_pos; lia).
    assert (Z.of_nat hop * ((Z.of_nat L - Z.of_nat win) / Z.of_nat hop)
            ≤ Z.of_nat L - Z.of_nat win) by (apply Z.mul_div_le; lia).
    nia. }
  assert (Hin : ((f * hop + w) * D + d < L * D)%nat) by nia.
  assert (Hout : ((b + 1) * (L * D) ≤ B * (L * D))%nat)
    by (apply Nat.mul_le_mono_r; lia).
  lia.
Qed.

Lemma has_shape_sizes (input : list (list (list Z))) (B N D : nat) :
  has_shape input B N D → (1 ≤ B)%nat → (1 ≤ N)%nat →
  size1 input = N ∧ size2 input = D.
Proof.
  intros [HB Hall] HB1 HN1.
  destruct Hall as [|x input [Hx Hrows] _]; simpl in *; [lia|].
  split; [done|].
  destruct Hrows as [|r x Hr _]; simpl in *; [lia|done].
Qed.

(** With [center] set, Steps 1 to 3 succeed on a well-shaped batch, and
    [forward] is the masking of Step 4 applied to their result [labels],
    which has one row per item and the frame count of [frames_of] per row. *)
Lemma forward_center_steps (self : FrameLabelAggregate)
    (input : list (list (list Z))) (B N D : nat) :
  center self = true → hop_length self ≠ 0%nat →
  has_shape input B N D → (1 ≤ B)%nat → (1 ≤ N)%nat → (1 ≤ D)%nat →
  let pad := (win_length self / 2)%nat in
  let nframe := frames_of self (Z.of_nat (N + 2 * pad)) in
  ∃ labels,
    length labels = B
    ∧ Forall (λ row, Z.of_nat (length row) = nframe) labels
    ∧ forward self input None = Ok (labels, None)
    ∧ ∀ input_lengths,
        forward self input (Some input_lengths)
        = (let olens := frames_of self
                        <$> ((λ n, n + 2 * Z.of_nat pad) <$> input_lengths) in
           output ← masked_fill labels (make_pad_mask olens labels);
           Ok (output, Some olens)).
Proof.
  intros Hc Hhop Hshape HB1 HN1 HD1 pad nframe.
  destruct (has_shape_sizes _ _ _ _ Hshape HB1 HN1) as [Hs1 Hs2].
  destruct Hshape as [HB Hall].
  destruct (center_padding_batch pad N D input) as (padded & Hpad & Hlen & Hedges).
  { eapply Forall_impl; [exact Hall|]. by intros x [Hx _]. }
  assert (Hrows : Forall (Forall (λ r, length r = D)) padded).
  { eapply center_padding_rows; [exact Hpad|].
    eapply Forall_impl; [exact Hall|]. by intros x [_ Hx]. }
  set (L := (N + 2 * pad)%nat) in *.
  assert (HwinL : (win_length self ≤ L)%nat).
  { unfold L, pad.
    pose proof (Nat.div_mod_eq (win_length self) 2).
    pose proof (Nat.mod_upper_bound (win_length self) 2). lia. }
  assert (Hnf : 1 ≤ nframe).
  { unfold nframe, frames_of. fold L.
    assert (0 ≤ (Z.of_nat L - Z.of_nat (win_length self))
                / Z.of_nat (hop_length self)) by (apply Z.div_pos; lia).
    lia. }
  destruct (as_strided_ok (storage_of padded) B (Z.to_nat nframe)
              (win_length self) D (L * D) (hop_length self * D) D 1)
    as (strided & Hstr & HlenS & HallS).
  { intros b f w d Hb Hf Hw Hd.
    rewrite (length_storage_of B L D); [|lia| |done].
    - by apply (frame_index_bound B L D (win_length self) (hop_length self)).
    - eapply Forall_impl; [exact Hedges|]. by intros p [Hp _]. }
  destruct (aggregate_ok D (Z.to_nat nframe) strided HD1)
    as (labels & Hagg & HlenL & HallL).
  { eapply Forall_impl; [exact HallS|]. intros frames [Hfl Hfr]. split; [done|].
    eapply Forall_impl; [exact Hfr|]. by intros window [_ Hw]. }
  exists labels. split; [lia|]. split.
  { eapply Forall_impl; [exact HallL|]. intros row Hrow. simpl in Hrow. lia. }
  assert (Hfw : ∀ lens, forward self input lens
                  = match lens with
                    | Some input_lengths =>
                        let olens := frames_of self
                          <$> ((λ n, n + 2 * Z.of_nat pad) <$> input_lengths) in
                        output ← masked_fill labels (make_pad_mask olens labels);
                        Ok (output, Some olens)
                    | None => Ok (labels, None)
                    end).
  { intros lens. unfold forward. rewrite Hc, Hs1, Hs2. fold pad. fold L.
    rewrite Hpad. cbn [mbind result_bind].
    rewrite bool_decide_eq_false_2 by done. cbn [mbind result_bind].
    fold nframe. rewrite bool_decide_eq_false_2 by lia.
    rewrite HB. rewrite Hstr. cbn [mbind result_bind].
    rewrite Hagg. cbn [mbind result_bind]. done. }
  split; [apply (Hfw None)|]. intros input_lengths. apply (Hfw (Some _)).
Qed.

(** The frame count of a centred call: every row of the output has
    [((N + 2 * pad) - win_length) // hop_length + 1] frames. *)
Lemma forward_center_frames (self : FrameLabelAggregate)
    (input : list (list (list Z))) (B N D : nat) :
  center self = true → hop_length self ≠ 0%nat →
  has_shape input B N D → (1 ≤ B)%nat → (1 ≤ N)%nat → (1 ≤ D)%nat →
  let pad := Z.of_nat (win_length self / 2) in
  ∃ output,
    forward self input None = Ok (output, None)
    ∧ length output = B
    ∧ Forall (λ row, Z.of_nat (length row)
                     = ((Z.of_nat N + 2 * pad) - Z.of_nat (win_length self))
                       / Z.of_nat (hop_length self) + 1) output.
Proof.
  intros Hc Hhop Hshape HB HN HD pad.
  destruct (forward_center_steps self input B N D Hc Hhop Hshape HB HN HD)
    as (labels & Hlen & Hall & Hnone & _).
  exists labels. split; [done|]. split; [done|].
  eapply Forall_impl; [exact Hall|]. intros row ->. unfold frames_of, pad.
  do 3 f_equal. lia.
Qed.

Example frames_reference :
  frames_of {| win_length := 512; hop_length := 128; center := true |}
            (1024 + 2 * Z.of_nat (512 / 2)) = 9.
Proof. reflexivity. Qed.

(** What [masked_fill_] with the mask of [make_pad_mask] leaves at and after
    each length. *)
Lemma masked_fill_zero (labels output : list (list Z)) (olens : list Z) :
  masked_fill labels (make_pad_mask olens labels) = Ok output →
  length output = length labels
  ∧ (∀ b row, output !! b = Some row →
              ∃ row', labels !! b = Some row' ∧ length row ≤ length row')%nat
  ∧ ∀ (b t : nat) (row : list Z) (len v : Z),
      output !! b = Some row → olens !! b = Some len → row !! t = Some v →
      len ≤ Z.of_nat t → v = 0.
Proof.
  unfold masked_fill. case_bool_decide as Hlen; [|done]. intros [= <-].
  split; [rewrite length_zip_with; lia|]. split.
  - intros b row (lrow & mrow & -> & Hl & _)%lookup_zip_with_Some.
    exists lrow. split; [done|]. rewrite length_zip_with. lia.
  - intros b t row len v Hrow Hb Ht Hle.
    apply lookup_zip_with_Some in Hrow as (lrow & mrow & -> & Hl & Hm).
    unfold make_pad_mask in Hm. rewrite list_lookup_fmap, Hb in Hm.
    injection Hm as <-.
    apply lookup_zip_with_Some in Ht as (lv & m & -> & Hlv & Hmt).
    rewrite list_lookup_fmap in Hmt.
    destruct (seq 0 (size1 labels) !! t) as [t'|] eqn:Hseq; [|done].
    apply lookup_seq in Hseq as [-> _]. injection Hmt as <-.
    by rewrite bool_decide_eq_true_2.
Qed.

(** The lengths and the masking of a centred call: the returned lengths are
    [((input_lengths[i] + 2 * pad) - win_length) // hop_length + 1], every
    frame at or after the length of its item is zero, and without
    [input_lengths] no lengths are returned. *)
Lemma forward_center_lengths (self : FrameLabelAggregate)
    (input : list (list (list Z))) (input_lengths : list Z) (B N D : nat) :
  center self = true → hop_length self ≠ 0%nat →
  has_shape input B N D → (1 ≤ B)%nat → (1 ≤ N)%nat → (1 ≤ D)%nat →
  length input_lengths = B →
  let pad := Z.of_nat (win_length self / 2) in
  let olens := (λ n, ((n + 2 * pad) - Z.of_nat (win_length self))
                     / Z.of_nat (hop_length self) + 1) <$> input_lengths in
  (∃ output,
     forward self input (Some input_lengths) = Ok (output, Some olens)
     ∧ length output = B
     ∧ ∀ (i t : nat) (row : list Z) (len v : Z),
         output !! i = Some row → olens !! i = Some len →
         row !! t = Some v → len ≤ Z.of_nat t → v = 0)
  ∧ ∃ output, forward self input None = Ok (output, None).
Proof.
  intros Hc Hhop Hshape HB HN HD Hlens pad olens.
  destruct (forward_center_steps self input B N D Hc Hhop Hshape HB HN HD)
    as (labels & Hlen & Hall & Hnone & Hsome).
  split; [|by exists labels].
  assert (Holens : frames_of self
                     <$> ((λ n, n + 2 * Z.of_nat (win_length self / 2))
                          <$> input_lengths) = olens).
  { unfold olens. rewrite <- list_fmap_compose. done. }
  specialize (Hsome input_lengths). cbv zeta in Hsome.
  rewrite Holens in Hsome.
  destruct (masked_fill labels (make_pad_mask olens labels))
    as [output|] eqn:Hfill.
  - destruct (masked_fill_zero _ _ _ Hfill) as (Hlo & _ & Hzero).
    exists output. split; [exact Hsome|]. split; [lia|]. exact Hzero.
  - unfold masked_fill in Hfill.
    rewrite bool_decide_eq_true_2 in Hfill; [done|].
    unfold make_pad_mask, olens. rewrite !length_fmap. lia.
Qed.


(** ** [forward] without centring *)

(** C2. The frame count of the specification is [frames_of] at the padded
    length; [forward] computes it inside the [center] branch of Step 1 only,
    so a call with [center] unset reaches Step 2 with [nframe] unbound and
    raises instead of returning [(N - win_length) // hop_length + 1]
    frames. *)
Theorem forward_not_centered_unbound (self : FrameLabelAggregate)
    (input : list (list (list Z))) (input_lengths : option (list Z)) :
  center self = false →
  forward self input input_lengths = Raise UnboundLocalError.
Proof. intros Hc. unfold forward. rewrite Hc. reflexivity. Qed.

Lemma forward_not_centered_unbound_witness :
  forward {| win_length := 4; hop_length := 2; center := false |}
          [[[1]; [1]; [2]; [2]; [2]; [2]; [3]; [3]]] None
  = Raise UnboundLocalError.
Proof.
  apply (forward_not_centered_unbound
           {| win_length := 4; hop_length := 2; center := false |}).
  reflexivity.
Defined.

(** C6. With [center] unset and lengths given, Step 4 would return
    [(input_lengths - win_length) // hop_length + 1], here [[3; 2]], but the
    call raises at Step 2 and returns no lengths; the same call with
    [center] set returns the lengths of the formula and zeros from them on. *)
Theorem forward_lengths_not_centered :
  forward {| win_length := 4; hop_length := 2; center := false |}
          [[[1]; [1]; [2]; [2]; [2]; [2]; [3]; [3]];
           [[4]; [4]; [4]; [4]; [4]; [4]; [9]; [9]]] (Some [8; 6])
  = Raise UnboundLocalError
  ∧ frames_of {| win_length := 4; hop_length := 2; center := false |}
      <$> [8; 6] = [3; 2]
  ∧ forward {| win_length := 4; hop_length := 2; center := true |}
            [[[1]; [1]; [2]; [2]; [2]; [2]; [3]; [3]];
             [[4]; [4]; [4]; [4]; [4]; [4]; [9]; [9]]] (Some [8; 6])
    = Ok ([[4; 6; 8; 10; 12]; [16; 16; 16; 26; 0]], Some [5; 4]).
Proof. repeat split; vm_compute; reflexivity. Qed.

(** ** The frame reduction of [forward] *)

(** C1. On one item with one label channel, window length 5 and hop 1, the
    third frame is the window of samples [3,3,3,5,5].  The specification's
    reduction gives 3 for it; [forward] sums over [dim=2], the time axis of
    the window, and takes the mode over the label axis, and returns the sum
    19. *)
Theorem forward_sums_window :
  let self := {| win_length := 5; hop_length := 1; center := true |} in
  let input := [[[3]; [3]; [3]; [5]; [5]]] in
  center_padding 2 9 1 input
  = Ok [[[3]; [3]; [3]; [3]; [3]; [5]; [5]; [5]; [5]]]
  ∧ slice [[3]; [3]; [3]; [3]; [3]; [5]; [5]; [5]; [5]] 2 7
    = [[3]; [3]; [3]; [5]; [5]]
  ∧ spec_frame_label [[3]; [3]; [3]; [5]; [5]] = Ok 3
  ∧ sum_dim2 1 [[3]; [3]; [3]; [5]; [5]] = [19]
  ∧ forward self input None = Ok ([[15; 17; 19; 21; 23]], None).
Proof. repeat split; vm_compute; reflexivity. Qed.

Example syllable_forward_ex :
  syllable_forward [[1;1;2;2;2]; [3;3;3;0;0]] [5; 3]%nat
                   [[9;9;9;8;8]; [7;7;7;0;0]] [5; 3]%nat
                   [[4;4;4;4;4]; [6;6;6;0;0]] [5; 3]%nat
  = Done ([[1;2;2]; [3;0;0]], [3; 1]%nat, [[9;9;8]; [7;0;0]], [3; 1]%nat,
          [[4;4;4]; [6;0;0]], [3; 1]%nat).
Proof. vm_compute. reflexivity. Qed.

(** ** [ListsToTensor] *)

(** X1. On a non-empty list of lists [ListsToTensor] returns as many rows,
    all of the length [M] of a longest input list; each row starts with its
    input list and continues with zeros only. *)
Theorem ListsToTensor_rectangular (xs : list (list Z)) :
  xs ≠ [] →
  ∃ ys M,
    ListsToTensor xs = Done ys
    ∧ length ys = length xs
    ∧ (∀ x, x ∈ xs → (length x ≤ M)%nat)
    ∧ (∃ x, x ∈ xs ∧ length x = M)
    ∧ ∀ i x, xs !! i = Some x →
        ∃ y, ys !! i = Some y
             ∧ length y = M
             ∧ take (length x) y = x
             ∧ drop (length x) y = replicate (M - length x) 0.
Proof.
  intros Hxs. destruct xs as [|x0 xs0]; [done|]. clear Hxs.
  set (xs := x0 :: xs0).
  exists ((λ x, x ++ replicate (max_list (length <$> xs) - length x) 0) <$> xs),
         (max_list (length <$> xs)).
  assert (Hle : ∀ x, x ∈ xs → (length x ≤ max_list (length <$> xs))%nat).
  { intros x Hx. apply max_list_elem_of_le, list_elem_of_fmap. eauto. }
  split; [done|]. split; [by rewrite length_fmap|]. split; [exact Hle|]. split.
  - assert (Hmax : max_list (length <$> xs) ∈ length <$> xs)
      by by apply max_list_elem_of.
    apply list_elem_of_fmap in Hmax as (x & Hx & Hin). by exists x.
  - intros i x Hi. eexists. rewrite list_lookup_fmap, Hi. split; [done|].
    assert (length x ≤ max_list (length <$> xs))%nat
      by (eapply Hle, list_elem_of_lookup_2, Hi).
    rewrite length_app, length_replicate, take_app_length, drop_app_length.
    repeat split. lia.
Qed.

Lemma ListsToTensor_rectangular_witness :
  ∃ ys M,
    ListsToTensor [[1; 2; 2]; [3]] = Done ys
    ∧ length ys = length [[1; 2; 2]; [3]]
    ∧ (∀ x, x ∈ [[1; 2; 2]; [3]] → (length x ≤ M)%nat)
    ∧ (∃ x, x ∈ [[1; 2; 2]; [3]] ∧ length x = M)
    ∧ ∀ i x, [[1; 2; 2]; [3]] !! i = Some x →
        ∃ y, ys !! i = Some y
             ∧ length y = M
             ∧ take (length x) y = x
             ∧ drop (length x) y = replicate (M - length x) 0.
Proof. apply (ListsToTensor_rectangular [[1; 2; 2]; [3]]). discriminate. Defined.

Lemma max_list_uniform (l : list (list Z)) (k : nat) :
  l ≠ [] → Forall (λ x, length x = k) l → max_list (length <$> l) = k.
Proof.
  intros Hl Hall. induction Hall as [|x l Hx Hrest IH]; [done|].
  rewrite fmap_cons.
  change (max_list (length x :: (length <$> l)))
    with (length x `max` max_list (length <$> l))%nat.
  destruct l as [|x' l'].
  - simpl. lia.
  - rewrite IH by done. lia.
Qed.

Lemma ListsToTensor_inv (xs ys : list (list Z)) :
  ListsToTensor xs = Done ys →
  xs ≠ []
  ∧ ys = (λ x, x ++ replicate (max_list (length <$> xs) - length x) 0) <$> xs.
Proof. destruct xs; [done|]. by intros [= <-]. Qed.

Lemma ListsToTensor_uniform (xs : list (list Z)) (k : nat) :
  xs ≠ [] → Forall (λ x, length x = k) xs → ListsToTensor xs = Done xs.
Proof.
  intros Hxs Hall. destruct xs as [|x0 xs0]; [done|].
  unfold ListsToTensor. f_equal.
  rewrite (max_list_uniform _ k) by done.
  rewrite <- (list_fmap_id (x0 :: xs0)) at 2.
  apply Forall_fmap_ext_1. eapply Forall_impl; [exact Hall|].
  intros x ->. simpl. by rewrite Nat.sub_diag, app_nil_r.
Qed.

(** X2. A non-empty list of lists that all have the same length comes back
    from [ListsToTensor] unchanged, and so [ListsToTensor] applied to its
    own result changes nothing. *)
Theorem ListsToTensor_fixpoint (xs : list (list Z)) (n : nat) :
  xs ≠ [] →
  Forall (λ x, length x = n) xs →
  ListsToTensor xs = Done xs
  ∧ ∀ zs, ListsToTensor zs ≫= ListsToTensor = ListsToTensor zs.
Proof.
  intros Hxs Hall. split; [by apply (ListsToTensor_uniform xs n)|].
  intros zs. destruct (ListsToTensor zs) as [ys|] eqn:Hzs; [|done].
  cbn [mbind outcome_bind].
  apply ListsToTensor_inv in Hzs as [Hne ->].
  apply (ListsToTensor_uniform _ (max_list (length <$> zs))).
  - by destruct zs.
  - apply Forall_fmap, Forall_forall. intros z Hz. simpl.
    assert (length z ≤ max_list (length <$> zs))%nat
      by (apply max_list_elem_of_le, list_elem_of_fmap; eauto).
    rewrite length_app, length_replicate. lia.
Qed.

Lemma ListsToTensor_fixpoint_witness :
  ListsToTensor [[1; 2]; [3; 0]] = Done [[1; 2]; [3; 0]]
  ∧ ∀ zs, ListsToTensor zs ≫= ListsToTensor = ListsToTensor zs.
Proof.
  apply (ListsToTensor_fixpoint [[1; 2]; [3; 0]] 2).
  - discriminate.
  - repeat constructor.
Defined.

(** ** The boundary list of [get_segments] *)

Lemma StronglySorted_le_lt (l : list nat) :
  StronglySorted (≤)%nat l → NoDup l → StronglySorted (<)%nat l.
Proof.
  induction 1 as [|x l _ IH Hx]; intros Hnd; [constructor|].
  apply NoDup_cons in Hnd as [Hx' Hnd].
  constructor; [by apply IH|].
  rewrite Forall_forall in Hx |- *. intros y Hy.
  assert (x ≠ y) by (by intros ->). specialize (Hx y Hy). lia.
Qed.

Lemma sorted_set_sorted (sq : list nat) : StronglySorted (<)%nat (sorted_set sq).
Proof.
  unfold sorted_set. apply StronglySorted_le_lt.
  - apply StronglySorted_merge_sort; apply _.
  - rewrite merge_sort_Permutation. apply NoDup_elements.
Qed.

Lemma StronglySorted_lt_lookup (l : list nat) (i j a b : nat) :
  StronglySorted (<)%nat l → l !! i = Some a → l !! j = Some b →
  (i < j)%nat → (a < b)%nat.
Proof.
  intros Hl. revert i j. induction Hl as [|x l _ IH Hx]; intros i j; [done|].
  destruct i as [|i], j as [|j]; simpl; try lia.
  - intros [= <-] Hb _. rewrite Forall_forall in Hx.
    eapply Hx, list_elem_of_lookup_2, Hb.
  - intros Ha Hb Hij. apply (IH i j); [done..|lia].
Qed.

Lemma StronglySorted_lt_index (l : list nat) (i a : nat) :
  StronglySorted (<)%nat l → l !! i = Some a → (i ≤ a)%nat.
Proof.
  intros Hl. revert a. induction i as [|i IH]; intros a Ha; [lia|].
  destruct (lookup_lt_is_Some_2 l i) as [b Hb].
  { apply lookup_lt_Some in Ha. lia. }
  specialize (IH b Hb).
  assert (b < a)%nat by (eapply (StronglySorted_lt_lookup l i (S i)); eauto).
  lia.
Qed.

(** A strictly increasing list of naturals that holds 0 and a largest
    element [m] starts with 0, ends with [m] and has at most [m + 1]
    entries. *)
Lemma StronglySorted_lt_ends (l : list nat) (m : nat) :
  StronglySorted (<)%nat l → 0%nat ∈ l → m ∈ l → Forall (λ j, j ≤ m)%nat l →
  head l = Some 0%nat ∧ last l = Some m ∧ (length l ≤ m + 1)%nat.
Proof.
  intros Hl H0 Hm Hle.
  assert (Hlast : last l = Some m).
  { destruct (last l) as [z|] eqn:Hz.
    + apply last_Some in Hz as [l' ->].
      apply StronglySorted_app in Hl as (Hlt & _ & _).
      apply elem_of_app in Hm as [Hm|Hm%list_elem_of_singleton]; [|by subst].
      specialize (Hlt m z Hm (list_elem_of_here _ _)).
      rewrite Forall_forall in Hle.
      assert (z ≤ m)%nat by (apply Hle, elem_of_app; right; left).
      exfalso. lia.
    + apply last_None in Hz. subst. by apply elem_of_nil in Hm. }
  split; [|split; [done|]].
  - destruct l as [|a l]; [by apply elem_of_nil in H0|]. simpl.
    apply StronglySorted_cons in Hl as [Ha _].
    apply elem_of_cons in H0 as [->|H0]; [done|].
    rewrite Forall_forall in Ha. apply Ha in H0. lia.
  - rewrite last_lookup in Hlast.
    apply (StronglySorted_lt_index l _ _ Hl) in Hlast. lia.
Qed.

Lemma boundary_step_subseteq (x : list Z) (sq sq' : list nat) (i j : nat) :
  boundary_step x sq i = Ok sq' → j ∈ sq → j ∈ sq'.
Proof.
  unfold boundary_step.
  destruct (getlast sq) as [k|]; simpl; [|done].
  destruct (getitem x k) as [a|]; simpl; [|done].
  destruct (getitem x i) as [b|]; simpl; [|done].
  case_bool_decide; intros [= <-] Hj; [|done].
  apply elem_of_app. by left.
Qed.

Lemma boundary_walk_elem_of (x : list Z) (n : nat) (sq sq' : list nat) :
  boundary_walk x n sq = Ok sq' → n ∈ sq' ∧ ∀ j, j ∈ sq → j ∈ sq'.
Proof.
  unfold boundary_walk, boundary_loop.
  destruct (foldlM _ _ _) as [sq1|] eqn:Hfold; simpl; [|done].
  intros [= <-]. split.
  - apply elem_of_app. right. by left.
  - intros j Hj. apply elem_of_app. left.
    revert sq Hfold Hj. generalize (seq 0 n).
    induction l as [|i l IH]; intros sq; simpl.
    + by intros [= <-].
    + destruct (boundary_step x sq i) as [sq2|] eqn:Hstep; simpl; [|done].
      intros Hfold Hj. apply (IH sq2 Hfold).
      by eapply boundary_step_subseteq.
Qed.

(** The boundary list is strictly increasing, starts at 0 and ends at the
    larger of the two valid lengths. *)
Lemma boundaries_structure (durations score : list Z)
    (durations_lengths score_lengths : nat) (sq : list nat) :
  boundaries durations durations_lengths score score_lengths = Ok sq →
  StronglySorted (<)%nat sq
  ∧ head sq = Some 0%nat
  ∧ last sq = Some (durations_lengths `max` score_lengths)%nat
  ∧ (length sq ≤ durations_lengths `max` score_lengths + 1)%nat.
Proof.
  intros Hb.
  assert (Hle := boundaries_bound (durations_lengths `max` score_lengths)
                   _ _ _ _ _ Hb ltac:(lia) ltac:(lia)).
  unfold boundaries in Hb.
  destruct (boundary_walk durations _ _) as [sq1|] eqn:H1; simpl in Hb; [|done].
  destruct (boundary_walk score _ _) as [sq2|] eqn:H2; simpl in Hb; [|done].
  injection Hb as <-.
  destruct (boundary_walk_elem_of _ _ _ _ H1) as [Hd Hin1].
  destruct (boundary_walk_elem_of _ _ _ _ H2) as [Hs Hin2].
  split; [apply sorted_set_sorted|].
  apply StronglySorted_lt_ends; [apply sorted_set_sorted| | |done].
  - apply elem_of_sorted_set, Hin2, elem_of_app. right. by left.
  - apply elem_of_sorted_set.
    destruct (Nat.max_spec durations_lengths score_lengths) as [[_ ->]|[_ ->]];
      [done|].
    apply Hin2, elem_of_app. by left.
Qed.

(** ** The segments of [get_segments] *)

Lemma segment_loop_spec (durations score tempo : list Z) (sq idx : list nat)
    (a1 a2 a3 r1 r2 r3 : list Z) :
  foldlM (segment_step durations score tempo sq) (a1, a2, a3) idx
  = Ok (r1, r2, r3) →
  ∃ m1 m2 m3,
    r1 = a1 ++ m1 ∧ r2 = a2 ++ m2 ∧ r3 = a3 ++ m3
    ∧ Forall2 (segment_value durations sq) idx m1
    ∧ Forall2 (segment_value score sq) idx m2
    ∧ Forall2 (segment_value tempo sq) idx m3.
Proof.
  revert a1 a2 a3. induction idx as [|i idx IH]; intros a1 a2 a3; simpl.
  - intros [= <- <- <-]. exists [], [], []. rewrite !app_nil_r.
    repeat split; constructor.
  - unfold getitem.
    destruct (sq !! i) as [l|] eqn:Hl; simpl; [|done].
    destruct (sq !! (i + 1)%nat) as [r|] eqn:Hr; simpl; [|done].
    destruct (mode (slice durations l r)) as [v1|] eqn:H1; simpl; [|done].
    destruct (mode (slice score l r)) as [v2|] eqn:H2; simpl; [|done].
    destruct (mode (slice tempo l r)) as [v3|] eqn:H3; simpl; [|done].
    intros (m1 & m2 & m3 & -> & -> & -> & F1 & F2 & F3)%IH.
    exists (v1 :: m1), (v2 :: m2), (v3 :: m3).
    rewrite <- !(assoc_L (++)).
    repeat split; try done; constructor; try done; by exists l, r.
Qed.

Lemma get_segments_inv (durations score tempo : list Z)
    (durations_lengths score_lengths tempo_lengths : nat)
    (sd ss st : list Z) (n1 n2 n3 : nat) :
  get_segments durations durations_lengths score score_lengths
               tempo tempo_lengths = Ok (sd, n1, ss, n2, st, n3) →
  ∃ sq, boundaries durations durations_lengths score score_lengths = Ok sq
        ∧ n1 = (length sq - 1)%nat ∧ n2 = n1 ∧ n3 = n1
        ∧ Forall2 (segment_value durations sq) (seq 0 n1) sd
        ∧ Forall2 (segment_value score sq) (seq 0 n1) ss
        ∧ Forall2 (segment_value tempo sq) (seq 0 n1) st.
Proof.
  unfold get_segments.
  destruct (boundaries durations _ _ _) as [sq|]; simpl; [|done].
  destruct (foldlM _ _ _) as [[[r1 r2] r3]|] eqn:Hloop; simpl; [|done].
  intros [= <- <- <- <- <- <-].
  apply segment_loop_spec in Hloop
    as (m1 & m2 & m3 & -> & -> & -> & F1 & F2 & F3).
  exists sq. done.
Qed.

(** X3. When [get_segments] returns, its three counts are one number, the
    number of entries of each of the three segment lists; it is at most
    max(durations_lengths, score_lengths), and it is 0 exactly when both of
    these lengths are 0. *)
Theorem get_segments_counts (durations score tempo : list Z)
    (durations_lengths score_lengths tempo_lengths : nat)
    (sd ss st : list Z) (n1 n2 n3 : nat) :
  get_segments durations durations_lengths score score_lengths
               tempo tempo_lengths = Ok (sd, n1, ss, n2, st, n3) →
  n2 = n1 ∧ n3 = n1
  ∧ length sd = n1 ∧ length ss = n1 ∧ length st = n1
  ∧ (n1 ≤ durations_lengths `max` score_lengths)%nat
  ∧ (n1 = 0%nat ↔ durations_lengths = 0%nat ∧ score_lengths = 0%nat).
Proof.
  intros (sq & Hb & Hn & -> & -> & F1 & F2 & F3)%get_segments_inv.
  destruct (boundaries_structure _ _ _ _ _ Hb) as (_ & Hhead & Hlast & Hlen).
  apply Forall2_length in F1, F2, F3. rewrite length_seq in F1, F2, F3.
  do 5 (split; [done|]). split; [lia|].
  destruct sq as [|a [|b sq]]; simpl in *; [done| |].
  - injection Hhead as ->. injection Hlast as Hm. lia.
  - lia.
Qed.

Lemma get_segments_counts_witness :
  3%nat = 3%nat ∧ 3%nat = 3%nat
  ∧ length [1; 2; 2] = 3%nat ∧ length [9; 9; 8] = 3%nat
  ∧ length [4; 4; 6] = 3%nat
  ∧ (3 ≤ 5 `max` 5)%nat
  ∧ (3%nat = 0%nat ↔ 5%nat = 0%nat ∧ 5%nat = 0%nat).
Proof.
  apply (get_segments_counts [1;1;2;2;2] [9;9;9;8;8] [4;4;4;6;6] 5 5 5
           [1;2;2] [9;9;8] [4;4;6] 3 3 3).
  vm_compute. reflexivity.
Defined.

Lemma mode_elem_of (l : list Z) (v : Z) : mode l = Ok v → v ∈ l.
Proof.
  intros Hv. destruct (decide (l = [])) as [->|Hl]; [done|].
  destruct (mode_spec l Hl) as (m & Hm & Hin & _). congruence.
Qed.

(** X4. When [get_segments] returns [n] segments, its boundary list has
    [n + 1] entries, starts at 0 and ends at max(durations_lengths,
    score_lengths); segment [i] is the non-empty index range from boundary
    [i] to boundary [i + 1], and the duration, score and tempo reported for
    it are the modes of the three buffers over that range, each a value
    that occurs in the range. *)
Theorem get_segments_tiling (durations score tempo : list Z)
    (durations_lengths score_lengths tempo_lengths : nat)
    (sd ss st : list Z) (n n2 n3 : nat) :
  get_segments durations durations_lengths score score_lengths
               tempo tempo_lengths = Ok (sd, n, ss, n2, st, n3) →
  ∃ sq,
    boundaries durations durations_lengths score score_lengths = Ok sq
    ∧ length sq = (n + 1)%nat
    ∧ head sq = Some 0%nat
    ∧ last sq = Some (durations_lengths `max` score_lengths)%nat
    ∧ ∀ i, (i < n)%nat →
        ∃ l r vd vs vt,
          sq !! i = Some l ∧ sq !! (i + 1)%nat = Some r ∧ (l < r)%nat
          ∧ sd !! i = Some vd ∧ mode (slice durations l r) = Ok vd
          ∧ vd ∈ slice durations l r
          ∧ ss !! i = Some vs ∧ mode (slice score l r) = Ok vs
          ∧ vs ∈ slice score l r
          ∧ st !! i = Some vt ∧ mode (slice tempo l r) = Ok vt
          ∧ vt ∈ slice tempo l r.
Proof.
  intros (sq & Hb & Hn & -> & -> & F1 & F2 & F3)%get_segments_inv.
  destruct (boundaries_structure _ _ _ _ _ Hb) as (Hsorted & Hhead & Hlast & _).
  exists sq. split; [done|]. split.
  { destruct sq; simpl in *; [done|lia]. }
  split; [done|]. split; [done|].
  intros i Hi.
  assert (Hseq : seq 0 n !! i = Some i) by by apply lookup_seq_lt.
  destruct (Forall2_lookup_l _ _ _ _ _ F1 Hseq) as (vd & Hvd & l & r & Hl & Hr & Hd).
  destruct (Forall2_lookup_l _ _ _ _ _ F2 Hseq) as (vs & Hvs & l' & r' & Hl' & Hr' & Hs).
  destruct (Forall2_lookup_l _ _ _ _ _ F3 Hseq) as (vt & Hvt & l'' & r'' & Hl'' & Hr'' & Ht).
  simplify_eq.
  exists l, r, vd, vs, vt.
  assert (l < r)%nat
    by (eapply (StronglySorted_lt_lookup sq i (i + 1)); [done..|lia]).
  repeat split; try done; by apply mode_elem_of.
Qed.

Lemma get_segments_tiling_witness :
  ∃ sq,
    boundaries [1;1;2;2;2] 5 [9;9;9;8;8] 5 = Ok sq
    ∧ length sq = (3 + 1)%nat
    ∧ head sq = Some 0%nat
    ∧ last sq = Some (5 `max` 5)%nat
    ∧ ∀ i, (i < 3)%nat →
        ∃ l r vd vs vt,
          sq !! i = Some l ∧ sq !! (i + 1)%nat = Some r ∧ (l < r)%nat
          ∧ [1;2;2] !! i = Some vd ∧ mode (slice [1;1;2;2;2] l r) = Ok vd
          ∧ vd ∈ slice [1;1;2;2;2] l r
          ∧ [9;9;8] !! i = Some vs ∧ mode (slice [9;9;9;8;8] l r) = Ok vs
          ∧ vs ∈ slice [9;9;9;8;8] l r
          ∧ [4;4;6] !! i = Some vt ∧ mode (slice [4;4;4;6;6] l r) = Ok vt
          ∧ vt ∈ slice [4;4;4;6;6] l r.
Proof.
  apply (get_segments_tiling [1;1;2;2;2] [9;9;9;8;8] [4;4;4;6;6] 5 5 5
           [1;2;2] [9;9;8] [4;4;6] 3 3 3).
  vm_compute. reflexivity.
Defined.

Lemma foldlM_ok {A B : Type} (f : B → A → result B) (b : B) (l : list A) :
  (∀ b a, a ∈ l → ∃ b', f b a = Ok b') → ∃ b', foldlM f b l = Ok b'.
Proof.
  revert b. induction l as [|a l IH]; intros b Hf; simpl; [by exists b|].
  destruct (Hf b a) as [b' Hb']; [left|]. rewrite Hb'. simpl.
  apply IH. intros b0 a0 Ha0. apply Hf. by right.
Qed.

Lemma get_segments_ok (durations score tempo : list Z)
    (durations_lengths score_lengths tempo_lengths : nat) :
  let m := (durations_lengths `max` score_lengths)%nat in
  (m ≤ length durations)%nat → (m ≤ length score)%nat →
  (m ≤ length tempo)%nat →
  ∃ sd ss st n,
    get_segments durations durations_lengths score score_lengths
                 tempo tempo_lengths = Ok (sd, n, ss, n, st, n).
Proof.
  intros m Hd Hs Ht.
  destruct (boundary_walk_records durations durations_lengths [0%nat])
    as (rec_d & Hwd & _); [lia|done|].
  destruct (boundary_walk_records score score_lengths
              (([0%nat] ++ rec_d ++ [durations_lengths]) ++ [0%nat]))
    as (rec_s & Hws & _); [lia|apply last_snoc|].
  assert (Hb : ∃ sq, boundaries durations durations_lengths score
                       score_lengths = Ok sq).
  { unfold boundaries. rewrite Hwd. cbn [mbind result_bind]. rewrite Hws.
    by eexists. }
  destruct Hb as [sq Hb].
  destruct (boundaries_structure _ _ _ _ _ Hb) as (Hsorted & _ & _ & _).
  assert (Hle := boundaries_bound m _ _ _ _ _ Hb ltac:(lia) ltac:(lia)).
  unfold get_segments. rewrite Hb. cbn [mbind result_bind].
  destruct (foldlM_ok (segment_step durations score tempo sq) ([], [], [])
              (seq 0 (length sq - 1))) as [[[sd ss] st] Hloop].
  { intros [[a1 a2] a3] i Hi%elem_of_seq. unfold segment_step, getitem.
    destruct (lookup_lt_is_Some_2 sq i) as [l Hl]; [lia|].
    destruct (lookup_lt_is_Some_2 sq (i + 1)) as [r Hr]; [lia|].
    rewrite Hl, Hr. cbn [mbind result_bind].
    assert (l < r)%nat
      by (eapply (StronglySorted_lt_lookup sq i (i + 1)); [done..|lia]).
    assert (r ≤ m)%nat.
    { rewrite Forall_forall in Hle. eapply Hle, list_elem_of_lookup_2, Hr. }
    assert (Hne : ∀ x : list Z, (m ≤ length x)%nat → slice x l r ≠ []).
    { intros x Hx Hnil. apply (f_equal length) in Hnil.
      rewrite length_slice in Hnil. simpl in Hnil. lia. }
    destruct (mode_ok _ (Hne durations Hd)) as [v1 ->].
    destruct (mode_ok _ (Hne score Hs)) as [v2 ->].
    destruct (mode_ok _ (Hne tempo Ht)) as [v3 ->].
    by eexists. }
  rewrite Hloop. cbn [mbind result_bind]. by exists sd, ss, st, (length sq - 1)%nat.
Qed.

(** X5. [get_segments] returns, without raising, whenever the three buffers
    hold at least max(durations_lengths, score_lengths) samples. *)
Theorem get_segments_returns (durations score tempo : list Z)
    (durations_lengths score_lengths tempo_lengths : nat) :
  let m := (durations_lengths `max` score_lengths)%nat in
  (m ≤ length durations)%nat → (m ≤ length score)%nat →
  (m ≤ length tempo)%nat →
  ∃ sd ss st n,
    get_segments durations durations_lengths score score_lengths
                 tempo tempo_lengths = Ok (sd, n, ss, n, st, n).
Proof. apply get_segments_ok. Qed.

Lemma get_segments_returns_witness :
  ∃ sd ss st n,
    get_segments [1;1;2;0] 3 [9;8;8;0] 2 [5;5;6;0] 0 = Ok (sd, n, ss, n, st, n).
Proof.
  apply (get_segments_returns [1;1;2;0] [9;8;8;0] [5;5;6;0] 3 2 0);
    simpl; lia.
Defined.

Lemma boundary_step_past_end (x : list Z) (sq : list nat) (j : nat) :
  last sq = Some j → boundary_step x sq (length x) = Raise IndexError.
Proof.
  intros Hlast. unfold boundary_step, getlast, getitem. rewrite Hlast. simpl.
  destruct (x !! j); simpl; [|done].
  by rewrite lookup_ge_None_2.
Qed.

(** A walk whose valid length exceeds the buffer stops with [IndexError]
    at the first index past the end. *)
Lemma boundary_walk_overrun (x : list Z) (n : nat) (sq : list nat) :
  (length x < n)%nat → last sq = Some 0%nat →
  boundary_walk x n sq = Raise IndexError.
Proof.
  intros Hn H0. unfold boundary_walk, boundary_loop.
  replace n with (length x + S (n - length x - 1))%nat by lia.
  rewrite seq_app, foldlM_app.
  destruct (boundary_loop_records x (length x) sq) as (rec & Hloop & [Hrec _] & _);
    [lia|done|].
  unfold boundary_loop in Hloop. rewrite Hloop.
  destruct (last_most_recent sq rec (length x) H0 Hrec) as [Hlast _].
  cbn [mbind result_bind seq foldlM Nat.add].
  by rewrite (boundary_step_past_end _ _ _ Hlast).
Qed.

(** X6. A valid length larger than its buffer is an [IndexError]: for the
    durations always, and for the score when the durations walk went
    through. *)
Theorem get_segments_overrun (durations score tempo : list Z)
    (durations_lengths score_lengths tempo_lengths : nat) :
  (length durations < durations_lengths)%nat
  ∨ ((durations_lengths ≤ length durations)%nat
     ∧ (length score < score_lengths)%nat) →
  get_segments durations durations_lengths score score_lengths
               tempo tempo_lengths = Raise IndexError.
Proof.
  intros [Hd|[Hd Hs]]; unfold get_segments, boundaries.
  - by rewrite boundary_walk_overrun.
  - destruct (boundary_walk_records durations durations_lengths [0%nat])
      as (rec_d & -> & _); [done..|].
    cbn [mbind result_bind].
    rewrite boundary_walk_overrun; [done..|apply last_snoc].
Qed.

Lemma get_segments_overrun_witness :
  get_segments [1; 2] 3 [9; 9; 9] 3 [5; 5; 5] 3 = Raise IndexError.
Proof.
  apply (get_segments_overrun [1; 2] [9; 9; 9] [5; 5; 5] 3 3 3).
  left. simpl. lia.
Defined.

(** ** [syllable_forward] *)



Lemma syllable_step_inv (durations : list (list Z))
    (durations_lengths : list nat) (score : list (list Z))
    (score_lengths : list nat) (tempo : list (list Z))
    (tempo_lengths : list nat) (i : nat) (acc acc' : seg_lists) :
  syllable_step durations durations_lengths score score_lengths
    tempo tempo_lengths acc i = Ok acc' →
  ∃ r,
    item_segments durations durations_lengths score score_lengths
      tempo tempo_lengths i r
    ∧ seg_durations acc' = seg_durations acc ++ [r.1.1.1.1.1]
    ∧ seg_durations_lengths acc' = seg_durations_lengths acc ++ [r.1.1.1.1.2]
    ∧ seg_score acc' = seg_score acc ++ [r.1.1.1.2]
    ∧ seg_score_lengths acc' = seg_score_lengths acc ++ [r.1.1.2]
    ∧ seg_tempo acc' = seg_tempo acc ++ [r.1.2]
    ∧ seg_tempo_lengths acc' = seg_tempo_lengths acc ++ [r.2].
Proof.
  unfold syllable_step, getitem.
  destruct (durations !! i) as [d|] eqn:Hd; simpl; [|done].
  destruct (durations_lengths !! i) as [dl|] eqn:Hdl; simpl; [|done].
  destruct (score !! i) as [s|] eqn:Hs; simpl; [|done].
  destruct (score_lengths !! i) as [sl|] eqn:Hsl; simpl; [|done].
  destruct (tempo !! i) as [t|] eqn:Ht; simpl; [|done].
  destruct (tempo_lengths !! i) as [tl|] eqn:Htl; simpl; [|done].
  destruct (get_segments d dl s sl t tl) as [[[[[[s0 s1] s2] s3] s4] s5]|]
    eqn:Hseg; simpl; [|done].
  intros [= <-]. exists (s0, s1, s2, s3, s4, s5). simpl.
  repeat split. by exists d, dl, s, sl, t, tl.
Qed.

Lemma syllable_loop_spec (durations : list (list Z))
    (durations_lengths : list nat) (score : list (list Z))
    (score_lengths : list nat) (tempo : list (list Z))
    (tempo_lengths : list nat) (idx : list nat) (acc acc' : seg_lists) :
  foldlM (syllable_step durations durations_lengths score score_lengths
            tempo tempo_lengths) acc idx = Ok acc' →
  ∃ rs,
    Forall2 (item_segments durations durations_lengths score score_lengths
               tempo tempo_lengths) idx rs
    ∧ seg_durations acc'
      = seg_durations acc ++ ((λ r, r.1.1.1.1.1) <$> rs)
    ∧ seg_durations_lengths acc'
      = seg_durations_lengths acc ++ ((λ r, r.1.1.1.1.2) <$> rs)
    ∧ seg_score acc' = seg_score acc ++ ((λ r, r.1.1.1.2) <$> rs)
    ∧ seg_score_lengths acc'
      = seg_score_lengths acc ++ ((λ r, r.1.1.2) <$> rs)
    ∧ seg_tempo acc' = seg_tempo acc ++ ((λ r, r.1.2) <$> rs)
    ∧ seg_tempo_lengths acc' = seg_tempo_lengths acc ++ ((λ r, r.2) <$> rs).
Proof.
  revert acc. induction idx as [|i idx IH]; intros acc; simpl.
  - intros [= <-]. exists []. simpl. rewrite !app_nil_r.
    repeat split. constructor.
  - destruct (syllable_step _ _ _ _ _ _ acc i) as [acc1|] eqn:Hstep; simpl;
      [|done].
    apply syllable_step_inv in Hstep
      as (r & Hr & E1 & E2 & E3 & E4 & E5 & E6).
    intros (rs & Hall & H1 & H2 & H3 & H4 & H5 & H6)%IH.
    exists (r :: rs). simpl.
    rewrite H1, H2, H3, H4, H5, H6, E1, E2, E3, E4, E5, E6.
    rewrite <- !(assoc_L (++)).
    repeat split. by constructor.
Qed.


(** The counts and list lengths of every result gathered from a batch. *)
Lemma item_segments_counts (durations : list (list Z))
    (durations_lengths : list nat) (score : list (list Z))
    (score_lengths : list nat) (tempo : list (list Z))
    (tempo_lengths : list nat) (i : nat)
    (r : list Z * nat * list Z * nat * list Z * nat) :
  item_segments durations durations_lengths score score_lengths
    tempo tempo_lengths i r →
  r.1.1.2 = r.1.1.1.1.2 ∧ r.2 = r.1.1.1.1.2
  ∧ length r.1.1.1.1.1 = r.1.1.1.1.2
  ∧ length r.1.1.1.2 = r.1.1.1.1.2
  ∧ length r.1.2 = r.1.1.1.1.2.
Proof.
  intros (d & dl & s & sl & t & tl & _ & _ & _ & _ & _ & _ & Hseg).
  destruct r as [[[[[sd n1] ss] n2] st] n3]. simpl.
  destruct (get_segments_inv _ _ _ _ _ _ _ _ _ _ _ _ Hseg)
    as (sq & _ & _ & -> & -> & F1 & F2 & F3).
  apply Forall2_length in F1, F2, F3. rewrite length_seq in F1, F2, F3.
  done.
Qed.

(** X8. When [syllable_forward] returns, the batch is not empty, the three
    length vectors are one vector with the segment count of every item, and
    row [i] of each of the three tensors is what [get_segments] returns for
    item [i], followed by zeros up to the largest segment count of the
    batch. *)
Theorem syllable_forward_rows (durations : list (list Z))
    (durations_lengths : list nat) (score : list (list Z))
    (score_lengths : list nat) (tempo : list (list Z))
    (tempo_lengths : list nat)
    (SD SS ST : list (list Z)) (SDL SSL STL : list nat) :
  syllable_forward durations durations_lengths score score_lengths
                   tempo tempo_lengths = Done (SD, SDL, SS, SSL, ST, STL) →
  let bs := length durations in
  (1 ≤ bs)%nat
  ∧ length SDL = bs ∧ SSL = SDL ∧ STL = SDL
  ∧ length SD = bs ∧ length SS = bs ∧ length ST = bs
  ∧ ∀ i, (i < bs)%nat →
      ∃ sd ss st n,
        item_segments durations durations_lengths score score_lengths
          tempo tempo_lengths i (sd, n, ss, n, st, n)
        ∧ length sd = n ∧ length ss = n ∧ length st = n
        ∧ SDL !! i = Some n
        ∧ SD !! i = Some (sd ++ replicate (max_list SDL - n) 0)
        ∧ SS !! i = Some (ss ++ replicate (max_list SDL - n) 0)
        ∧ ST !! i = Some (st ++ replicate (max_list SDL - n) 0).
Proof.
  unfold syllable_forward.
  case_bool_decide as Hshape; simpl; [|done].
  case_bool_decide as Hlens; simpl; [|done].
  destruct (foldlM _ _ _) as [segs|] eqn:Hloop; simpl; [|done].
  apply syllable_loop_spec in Hloop
    as (rs & Hall & H1 & H2 & H3 & H4 & H5 & H6). simpl in *.
  destruct (ListsToTensor (seg_durations segs)) as [SD'|] eqn:HSD; simpl;
    [|done].
  destruct (ListsToTensor (seg_score segs)) as [SS'|] eqn:HSS; simpl; [|done].
  destruct (ListsToTensor (seg_tempo segs)) as [ST'|] eqn:HST; simpl; [|done].
  intros [= <- <- <- <- <- <-].
  apply ListsToTensor_inv in HSD as [Hne ->], HSS as [_ ->], HST as [_ ->].
  rewrite H1, H2, H3, H4, H5, H6 in *. clear H1 H2 H3 H4 H5 H6.
  assert (Hrs : length rs = length durations).
  { by rewrite <- (Forall2_length _ _ _ Hall), length_seq. }
  assert (Hcounts : Forall (λ r, r.1.1.2 = r.1.1.1.1.2 ∧ r.2 = r.1.1.1.1.2
                            ∧ length r.1.1.1.1.1 = r.1.1.1.1.2
                            ∧ length r.1.1.1.2 = r.1.1.1.1.2
                            ∧ length r.1.2 = r.1.1.1.1.2) rs).
  { eapply Forall2_Forall_r; [exact Hall|]. apply Forall_true.
    intros i r. apply item_segments_counts. }
  assert (Hw1 : length <$> ((λ r, r.1.1.1.1.1) <$> rs)
                = (λ r, r.1.1.1.1.2) <$> rs).
  { rewrite <- list_fmap_compose. apply Forall_fmap_ext_1.
    eapply Forall_impl; [exact Hcounts|].
    by intros r (? & ? & ? & ? & ?). }
  assert (Hw2 : length <$> ((λ r, r.1.1.1.2) <$> rs)
                = (λ r, r.1.1.1.1.2) <$> rs).
  { rewrite <- list_fmap_compose. apply Forall_fmap_ext_1.
    eapply Forall_impl; [exact Hcounts|].
    by intros r (? & ? & ? & ? & ?). }
  assert (Hw3 : length <$> ((λ r, r.1.2) <$> rs)
                = (λ r, r.1.1.1.1.2) <$> rs).
  { rewrite <- list_fmap_compose. apply Forall_fmap_ext_1.
    eapply Forall_impl; [exact Hcounts|].
    by intros r (? & ? & ? & ? & ?). }
  rewrite Hw1, Hw2, Hw3. rewrite !length_fmap.
  split. { destruct rs; [done|]. simpl in Hrs. lia. }
  split; [done|]. split.
  { apply Forall_fmap_ext_1. eapply Forall_impl; [exact Hcounts|].
    by intros r (? & ? & ? & ? & ?). }
  split.
  { apply Forall_fmap_ext_1. eapply Forall_impl; [exact Hcounts|].
    by intros r (? & ? & ? & ? & ?). }
  do 3 (split; [done|]).
  intros i Hi.
  assert (Hseq : seq 0 (length durations) !! i = Some i)
    by by apply lookup_seq_lt.
  destruct (Forall2_lookup_l _ _ _ _ _ Hall Hseq) as (r & Hr & Hitem).
  destruct (item_segments_counts _ _ _ _ _ _ _ _ Hitem)
    as (E2 & E3 & L1 & L2 & L3).
  destruct r as [[[[[sd n1] ss] n2] st] n3]. simpl in *. subst n2 n3.
  exists sd, ss, st, n1. split; [done|]. do 3 (split; [done|]).
  rewrite !list_lookup_fmap, Hr. simpl. rewrite L1, L2, L3. done.
Qed.

Lemma syllable_forward_rows_witness :
  let SDL := [3; 1]%nat in
  (1 ≤ 2)%nat
  ∧ length SDL = 2%nat ∧ SDL = SDL ∧ SDL = SDL
  ∧ length [[1;2;2]; [3;0;0]] = 2%nat ∧ length [[9;9;8]; [7;0;0]] = 2%nat
  ∧ length [[4;4;4]; [6;0;0]] = 2%nat
  ∧ ∀ i, (i < 2)%nat →
      ∃ sd ss st n,
        item_segments [[1;1;2;2;2]; [3;3;3;0;0]] [5; 3]%nat
          [[9;9;9;8;8]; [7;7;7;0;0]] [5; 3]%nat
          [[4;4;4;4;4]; [6;6;6;0;0]] [5; 3]%nat i (sd, n, ss, n, st, n)
        ∧ length sd = n ∧ length ss = n ∧ length st = n
        ∧ SDL !! i = Some n
        ∧ [[1;2;2]; [3;0;0]] !! i = Some (sd ++ replicate (max_list SDL - n) 0)
        ∧ [[9;9;8]; [7;0;0]] !! i = Some (ss ++ replicate (max_list SDL - n) 0)
        ∧ [[4;4;4]; [6;0;0]] !! i = Some (st ++ replicate (max_list SDL - n) 0).
Proof.
  apply (syllable_forward_rows [[1;1;2;2;2]; [3;3;3;0;0]] [5; 3]%nat
           [[9;9;9;8;8]; [7;7;7;0;0]] [5; 3]%nat
           [[4;4;4;4;4]; [6;6;6;0;0]] [5; 3]%nat).
  vm_compute. reflexivity.
Defined.

Lemma shape2_rectangular {A : Type} (t : list (list A)) (bs N : nat) :
  (1 ≤ bs)%nat → length t = bs → Forall (λ x, length x = N) t →
  shape2 t = (bs, N).
Proof.
  intros Hbs Hlen Hall. unfold shape2. rewrite Hlen. f_equal.
  destruct Hall as [|x t Hx _]; simpl in *; [lia|done].
Qed.

(** X9. [syllable_forward] returns on a non-empty batch of three
    (Batch, Nsamples) tensors and three length vectors of Batch entries,
    whenever every durations and score length is at most Nsamples. *)
Theorem syllable_forward_returns (durations : list (list Z))
    (durations_lengths : list nat) (score : list (list Z))
    (score_lengths : list nat) (tempo : list (list Z))
    (tempo_lengths : list nat) (bs N : nat) :
  (1 ≤ bs)%nat →
  length durations = bs → Forall (λ x, length x = N) durations →
  length score = bs → Forall (λ x, length x = N) score →
  length tempo = bs → Forall (λ x, length x = N) tempo →
  length durations_lengths = bs → length score_lengths = bs →
  length tempo_lengths = bs →
  Forall (λ n, n ≤ N)%nat durations_lengths →
  Forall (λ n, n ≤ N)%nat score_lengths →
  ∃ r, syllable_forward durations durations_lengths score score_lengths
                        tempo tempo_lengths = Done r.
Proof.
  intros Hbs Hd HdN Hs HsN Ht HtN Hdl Hsl Htl HdlN HslN.
  unfold syllable_forward.
  rewrite !(shape2_rectangular _ bs N) by done.
  rewrite bool_decide_eq_true_2 by done. simpl.
  rewrite bool_decide_eq_true_2 by (split; congruence). simpl.
  destruct (foldlM_ok (syllable_step durations durations_lengths score
                         score_lengths tempo tempo_lengths)
              {| seg_durations := []; seg_durations_lengths := [];
                 seg_score := []; seg_score_lengths := [];
                 seg_tempo := []; seg_tempo_lengths := [] |}
              (seq 0 (length durations))) as [segs Hloop].
  { intros acc i Hi%elem_of_seq. unfold syllable_step, getitem.
    destruct (lookup_lt_is_Some_2 durations i) as [d Hdi]; [lia|].
    destruct (lookup_lt_is_Some_2 durations_lengths i) as [dl Hdli]; [lia|].
    destruct (lookup_lt_is_Some_2 score i) as [s Hsi]; [lia|].
    destruct (lookup_lt_is_Some_2 score_lengths i) as [sl Hsli]; [lia|].
    destruct (lookup_lt_is_Some_2 tempo i) as [t Hti]; [lia|].
    destruct (lookup_lt_is_Some_2 tempo_lengths i) as [tl Htli]; [lia|].
    rewrite Hdi, Hdli, Hsi, Hsli, Hti, Htli. cbn [mbind result_bind].
    rewrite Forall_forall in HdN. rewrite Forall_forall in HsN.
    rewrite Forall_forall in HtN. rewrite Forall_forall in HdlN.
    rewrite Forall_forall in HslN.
    assert (length d = N) by (eapply HdN, list_elem_of_lookup_2, Hdi).
    assert (length s = N) by (eapply HsN, list_elem_of_lookup_2, Hsi).
    assert (length t = N) by (eapply HtN, list_elem_of_lookup_2, Hti).
    assert (dl ≤ N)%nat by (eapply HdlN, list_elem_of_lookup_2, Hdli).
    assert (sl ≤ N)%nat by (eapply HslN, list_elem_of_lookup_2, Hsli).
    destruct (get_segments_ok d s t dl sl tl) as (sd & ss & st & n & ->);
      [lia..|].
    by eexists. }
  rewrite Hloop. cbn [lift mbind outcome_bind].
  apply syllable_loop_spec in Hloop
    as (rs & Hall & H1 & H2 & H3 & H4 & H5 & H6). simpl in *.
  assert (Hrs : rs ≠ []).
  { apply Forall2_length in Hall. rewrite length_seq in Hall.
    intros ->. simpl in Hall. lia. }
  rewrite H1, H3, H5.
  destruct rs as [|r rs]; [done|]. simpl. by eexists.
Qed.

Lemma syllable_forward_returns_witness :
  ∃ r, syllable_forward [[1;1;2;2;2]; [3;3;3;0;0]] [5; 3]%nat
                        [[9;9;9;8;8]; [7;7;7;0;0]] [5; 3]%nat
                        [[4;4;4;4;4]; [6;6;6;0;0]] [5; 3]%nat = Done r.
Proof.
  apply (syllable_forward_returns [[1;1;2;2;2]; [3;3;3;0;0]] [5; 3]%nat
           [[9;9;9;8;8]; [7;7;7;0;0]] [5; 3]%nat
           [[4;4;4;4;4]; [6;6;6;0;0]] [5; 3]%nat 2 5);
    try reflexivity; try lia; repeat constructor.
Defined.

(** ** More on the centre padding *)

Lemma lookup_pad_constant {A : Type} (z : A) (pad : nat) (x : list A)
    (i : nat) :
  (replicate pad z ++ x ++ replicate pad z) !! i
  = if decide (i < pad)%nat then Some z
    else if decide (i < pad + length x)%nat then x !! (i - pad)%nat
    else if decide (i < length x + 2 * pad)%nat then Some z
    else None.
Proof.
  repeat case_decide.
  - rewrite lookup_app_l by (rewrite length_replicate; lia).
    by apply lookup_replicate_2.
  - rewrite lookup_app_r, length_replicate by (rewrite length_replicate; lia).
    by rewrite lookup_app_l by lia.
  - rewrite lookup_app_r, length_replicate by (rewrite length_replicate; lia).
    rewrite lookup_app_r by lia. apply lookup_replicate_2. lia.
  - apply lookup_ge_None_2. rewrite !length_app, !length_replicate. lia.
Qed.

Lemma setitem_slice_inv {A : Type} (x src y : list A) (lo hi : nat) :
  setitem_slice x lo hi src = Ok y → y = take lo x ++ src ++ drop hi x.
Proof. unfold setitem_slice. case_bool_decide; [|done]. by intros [= <-]. Qed.

(** The padded item, sample by sample, in terms of the item [x]. *)
Lemma center_padding_item_lookup {A : Type} (z : A) (pad N : nat)
    (x x1 x2 : list A) :
  length x = N →
  let L := (N + 2 * pad)%nat in
  let x0 := replicate pad z ++ x ++ replicate pad z in
  x1 = take 0 x0 ++ slice x0 pad (2 * pad) ++ drop pad x0 →
  x2 = take (L - pad) x1 ++ slice x1 (L - 2 * pad) (L - pad) ++ drop L x1 →
  (∀ k, (k < N)%nat → x2 !! (pad + k)%nat = x !! k)
  ∧ ((pad ≤ N)%nat → x2 = take pad x ++ x ++ drop (N - pad) x).
Proof.
  intros HN L x0 E1 E2.
  assert (H0 : length x0 = L).
  { unfold x0. rewrite !length_app, !length_replicate. lia. }
  assert (Hx0 := lookup_pad_constant z pad x). fold x0 in Hx0.
  rewrite HN in Hx0.
  assert (Hs1 : length (slice x0 pad (2 * pad)) = (pad - 0)%nat).
  { rewrite length_slice. lia. }
  assert (Hlen1 : length x1 = L).
  { rewrite E1, length_assigned; [done..|lia]. }
  assert (Hx1 : ∀ i, x1 !! i = if decide (i < pad)%nat
                               then x0 !! (pad + i)%nat else x0 !! i).
  { intros i. rewrite E1, lookup_assigned; [|done|lia].
    rewrite lookup_slice. repeat case_decide; try lia; [|done].
    f_equal. lia. }
  assert (Hs2 : length (slice x1 (L - 2 * pad) (L - pad))
                = (L - (L - pad))%nat).
  { rewrite length_slice. lia. }
  assert (Hx2 : ∀ i, x2 !! i
                = if decide (i < L - pad)%nat then x1 !! i
                  else if decide (i < L)%nat then x1 !! (i - pad)%nat
                  else x1 !! i).
  { intros i. rewrite E2, lookup_assigned; [|done|lia].
    rewrite lookup_slice. repeat case_decide; try lia; [done| |done].
    f_equal. lia. }
  clear E1 E2. clearbody x0. split.
  - intros k Hk. rewrite Hx2, decide_True by lia.
    rewrite Hx1. case_decide; [lia|].
    rewrite Hx0. repeat case_decide; try lia. f_equal. lia.
  - intros Hpad. apply list_eq. intros i. rewrite Hx2.
    assert (Hr : (take pad x ++ x ++ drop (N - pad) x) !! i
                 = if decide (i < pad)%nat then x !! i
                   else if decide (i < pad + N)%nat then x !! (i - pad)%nat
                   else x !! (i - 2 * pad)%nat).
    { assert (length (take pad x) = pad) by (rewrite length_take; lia).
      repeat case_decide.
      - rewrite lookup_app_l, lookup_take_lt by lia. done.
      - rewrite lookup_app_r by lia. rewrite lookup_app_l by lia.
        f_equal. lia.
      - rewrite lookup_app_r by lia. rewrite lookup_app_r by lia.
        rewrite lookup_drop. f_equal. lia. }
    rewrite Hr.
    repeat case_decide; try lia; rewrite !Hx1; repeat case_decide; try lia;
      rewrite !Hx0; repeat case_decide; try lia;
      try (f_equal; lia);
      try (symmetry; apply lookup_ge_None_2; lia);
      try (rewrite lookup_ge_None_2 by lia; done).
Qed.

Lemma mapM_result_fmap {A B : Type} (f : A → result B) (g : A → B)
    (l : list A) :
  Forall (λ a, f a = Ok (g a)) l → mapM_result f l = Ok (g <$> l).
Proof.
  induction 1 as [|a l Ha _ IH]; simpl; [done|].
  rewrite Ha. simpl. rewrite IH. done.
Qed.

(** The two assignments of the padding step as functions of one item. *)
Lemma center_padding_explicit (pad N label_dim : nat)
    (input : list (list (list Z))) :
  Forall (λ x, length x = N) input →
  let L := (N + 2 * pad)%nat in
  let pad0 := λ x : list (list Z),
    replicate pad (replicate label_dim 0) ++ x
    ++ replicate pad (replicate label_dim 0) in
  let assign1 := λ x0 : list (list Z),
    take 0 x0 ++ slice x0 pad (2 * pad) ++ drop pad x0 in
  let assign2 := λ x1 : list (list Z),
    take (L - pad) x1 ++ slice x1 (L - 2 * pad) (L - pad) ++ drop L x1 in
  center_padding pad L label_dim input
  = Ok ((λ x, assign2 (assign1 (pad0 x))) <$> input).
Proof.
  intros Hall L pad0 assign1 assign2. unfold center_padding, copy_slice.
  assert (Hitem : Forall (λ x,
            setitem_slice (pad0 x) 0 pad (slice (pad0 x) pad (2 * pad))
            = Ok (assign1 (pad0 x))
            ∧ setitem_slice (assign1 (pad0 x)) (L - pad) L
                (slice (assign1 (pad0 x)) (L - 2 * pad) (L - pad))
              = Ok (assign2 (assign1 (pad0 x)))) input).
  { eapply Forall_impl; [exact Hall|]. intros x Hx. simpl.
    destruct (center_padding_item (replicate label_dim 0) pad N x Hx)
      as (x1 & x2 & H1 & H2 & _).
    assert (E1 := setitem_slice_inv _ _ _ _ _ H1). fold (pad0 x) in E1.
    fold (assign1 (pad0 x)) in E1. subst x1.
    assert (E2 := setitem_slice_inv _ _ _ _ _ H2).
    fold L in E2. fold (assign2 (assign1 (pad0 x))) in E2. subst x2.
    done. }
  rewrite (mapM_result_fmap _ assign1).
  2: { unfold pad_constant. apply Forall_fmap.
       eapply Forall_impl; [exact Hitem|]. by intros x [H1 _]. }
  cbn [mbind result_bind].
  rewrite (mapM_result_fmap _ assign2).
  2: { unfold pad_constant. apply Forall_fmap, Forall_fmap.
       eapply Forall_impl; [exact Hitem|]. by intros x [_ H2]. }
  unfold pad_constant. by rewrite <- !list_fmap_compose.
Qed.

(** X10. The padding step of [forward] keeps every item in place between
    the two pads: sample [k] of the item is sample [pad + k] of the padded
    item.  For an item of at least [pad] samples the padded item is the
    first [pad] samples of the item, the item, and its last [pad] samples:
    the edges are copied in their order, not mirrored. *)
Theorem center_padding_contents (self : FrameLabelAggregate)
    (input : list (list (list Z))) :
  Forall (λ x, length x = size1 input) input →
  let pad := (win_length self / 2)%nat in
  let N := size1 input in
  ∃ padded,
    center_padding pad (N + 2 * pad) (size2 input) input = Ok padded
    ∧ Forall2 (λ x p,
        (∀ k, (k < N)%nat → p !! (pad + k)%nat = x !! k)
        ∧ ((pad ≤ N)%nat → p = take pad x ++ x ++ drop (N - pad) x))
        input padded.
Proof.
  intros Hall pad N. eexists.
  split; [by apply center_padding_explicit|].
  apply Forall2_fmap_r, Forall_Forall2_diag.
  eapply Forall_impl; [exact Hall|]. intros x Hx.
  by eapply center_padding_item_lookup.
Qed.

Lemma center_padding_contents_witness :
  ∃ padded,
    center_padding 2 (3 + 2 * 2) 1 [[[1]; [2]; [3]]] = Ok padded
    ∧ Forall2 (λ x p,
        (∀ k, (k < 3)%nat → p !! (2 + k)%nat = x !! k)
        ∧ ((2 ≤ 3)%nat → p = take 2 x ++ x ++ drop (3 - 2) x))
        [[[1]; [2]; [3]]] padded.
Proof.
  apply (center_padding_contents
           {| win_length := 4; hop_length := 1; center := true |}
           [[[1]; [2]; [3]]]).
  repeat constructor.
Defined.

(** ** The strided view of [forward] is the sliding window *)













(** ** Step 4 of [forward] *)

(** X13. Giving [input_lengths] to a centred [forward] changes nothing but
    the frames at or after the returned length of their item, which become
    0: every other frame is the frame of the call without lengths. *)
Theorem forward_lengths_only_mask (self : FrameLabelAggregate)
    (input : list (list (list Z))) (input_lengths : list Z) (B N D : nat) :
  center self = true → hop_length self ≠ 0%nat →
  has_shape input B N D → (1 ≤ B)%nat → (1 ≤ N)%nat → (1 ≤ D)%nat →
  length input_lengths = B →
  ∃ labels output olens,
    forward self input None = Ok (labels, None)
    ∧ forward self input (Some input_lengths) = Ok (output, Some olens)
    ∧ length output = length labels
    ∧ ∀ (b t : nat) (row : list Z) (v : Z),
        labels !! b = Some row → row !! t = Some v →
        ∃ len row',
          olens !! b = Some len ∧ output !! b = Some row'
          ∧ length row' = length row
          ∧ row' !! t = Some (if bool_decide (len ≤ Z.of_nat t) then 0 else v).
Proof.
  intros Hc Hhop Hshape HB HN HD Hlens.
  destruct (forward_center_steps self input B N D Hc Hhop Hshape HB HN HD)
    as (labels & Hlen & Hall & Hnone & Hsome).
  specialize (Hsome input_lengths). cbv zeta in Hsome.
  set (olens := frames_of self <$> _) in Hsome.
  assert (Holens : length olens = B) by (unfold olens; by rewrite !length_fmap).
  unfold masked_fill in Hsome.
  rewrite bool_decide_eq_true_2 in Hsome
    by (unfold make_pad_mask; rewrite length_fmap; lia).
  cbn [mbind result_bind] in Hsome.
  eexists labels, _, olens. split; [done|]. split; [exact Hsome|].
  split; [rewrite length_zip_with; unfold make_pad_mask;
          rewrite length_fmap; lia|].
  intros b t row v Hrow Hv.
  assert (Hb : (b < B)%nat) by (apply lookup_lt_Some in Hrow; lia).
  destruct (lookup_lt_is_Some_2 olens b) as [len Hlenb]; [lia|].
  assert (Hwidth : size1 labels = length row).
  { destruct labels as [|row0 labels]; [done|]. simpl.
    apply Forall_cons in Hall as [H0 Hall].
    rewrite Forall_forall in Hall.
    destruct b as [|b]; simpl in Hrow; [congruence|].
    specialize (Hall row (list_elem_of_lookup_2 _ _ _ Hrow)). lia. }
  exists len.
  eexists. split; [done|].
  rewrite lookup_zip_with, Hrow. simpl.
  unfold make_pad_mask. rewrite list_lookup_fmap, Hlenb. simpl.
  split; [done|]. split.
  - rewrite length_zip_with, length_fmap, length_seq. lia.
  - rewrite lookup_zip_with, Hv. simpl.
    rewrite list_lookup_fmap, lookup_seq_lt
      by (apply lookup_lt_Some in Hv; lia).
    simpl. by case_bool_decide.
Qed.

Lemma forward_lengths_only_mask_witness :
  ∃ labels output olens,
    forward {| win_length := 4; hop_length := 2; center := true |}
            [[[4]; [4]; [4]; [4]; [4]; [4]; [9]; [9]]] None
    = Ok (labels, None)
    ∧ forward {| win_length := 4; hop_length := 2; center := true |}
              [[[4]; [4]; [4]; [4]; [4]; [4]; [9]; [9]]] (Some [6])
      = Ok (output, Some olens)
    ∧ length output = length labels
    ∧ ∀ (b t : nat) (row : list Z) (v : Z),
        labels !! b = Some row → row !! t = Some v →
        ∃ len row',
          olens !! b = Some len ∧ output !! b = Some row'
          ∧ length row' = length row
          ∧ row' !! t = Some (if bool_decide (len ≤ Z.of_nat t) then 0 else v).
Proof.
  apply (forward_lengths_only_mask
           {| win_length := 4; hop_length := 2; center := true |}
           [[[4]; [4]; [4]; [4]; [4]; [4]; [9]; [9]]] [6] 1 8 1);
    try reflexivity; try lia; try discriminate.
  split; [reflexivity|]. repeat constructor.
Defined.

(** The frame count formula is monotone and not negative from length 0 on. *)
Lemma frames_of_bounds (self : FrameLabelAggregate) (N : nat) (n n' : Z) :
  hop_length self ≠ 0%nat →
  0 ≤ n → n ≤ n' → n' ≤ Z.of_nat N →
  let pad := Z.of_nat (win_length self / 2) in
  0 ≤ frames_of self (n + 2 * pad)
  ∧ frames_of self (n + 2 * pad) ≤ frames_of self (n' + 2 * pad)
  ∧ frames_of self (n' + 2 * pad)
    ≤ frames_of self (Z.of_nat (N + 2 * (win_length self / 2))).
Proof.
  intros Hhop Hn Hnn' HN pad. unfold frames_of.
  assert (Hpad : Z.of_nat (win_length self) - 1 ≤ 2 * pad).
  { unfold pad. pose proof (Nat.div_mod_eq (win_length self) 2).
    pose proof (Nat.mod_upper_bound (win_length self) 2). lia. }
  assert (Hh : 0 < Z.of_nat (hop_length self)) by lia.
  split; [|split].
  - assert (-1 ≤ (n + 2 * pad - Z.of_nat (win_length self))
                 / Z.of_nat (hop_length self)); [|lia].
    apply Z.div_le_lower_bound; lia.
  - assert ((n + 2 * pad - Z.of_nat (win_length self))
            / Z.of_nat (hop_length self)
            ≤ (n' + 2 * pad - Z.of_nat (win_length self))
              / Z.of_nat (hop_length self)); [|lia].
    apply Z.div_le_mono; lia.
  - assert ((n' + 2 * pad - Z.of_nat (win_length self))
            / Z.of_nat (hop_length self)
            ≤ (Z.of_nat (N + 2 * (win_length self / 2))
               - Z.of_nat (win_length self))
              / Z.of_nat (hop_length self)); [|lia].
    apply Z.div_le_mono; unfold pad; lia.
Qed.

(** X14. When every input length lies between 0 and N, the lengths that a
    centred [forward] returns lie between 0 and the number of frames of the
    output rows: the valid region never exceeds the output. *)
Theorem forward_lengths_within_frames (self : FrameLabelAggregate)
    (input : list (list (list Z))) (input_lengths : list Z) (B N D : nat) :
  center self = true → hop_length self ≠ 0%nat →
  has_shape input B N D → (1 ≤ B)%nat → (1 ≤ N)%nat → (1 ≤ D)%nat →
  length input_lengths = B →
  Forall (λ n, 0 ≤ n ≤ Z.of_nat N) input_lengths →
  ∃ output olens,
    forward self input (Some input_lengths) = Ok (output, Some olens)
    ∧ length olens = B ∧ length output = B
    ∧ ∀ (i : nat) (len : Z) (row : list Z),
        olens !! i = Some len → output !! i = Some row →
        0 ≤ len ≤ Z.of_nat (length row).
Proof.
  intros Hc Hhop Hshape HB HN HD Hlens Hrange.
  destruct (forward_center_steps self input B N D Hc Hhop Hshape HB HN HD)
    as (labels & Hlen & Hall & _ & Hsome).
  specialize (Hsome input_lengths). cbv zeta in Hsome.
  set (olens := frames_of self <$> _) in Hsome.
  assert (Holens : length olens = B) by (unfold olens; by rewrite !length_fmap).
  unfold masked_fill in Hsome.
  rewrite bool_decide_eq_true_2 in Hsome
    by (unfold make_pad_mask; rewrite length_fmap; lia).
  cbn [mbind result_bind] in Hsome.
  eexists _, olens. split; [exact Hsome|]. split; [done|]. split.
  { rewrite length_zip_with. unfold make_pad_mask. rewrite length_fmap. lia. }
  intros i len row Hi Hrow.
  apply lookup_zip_with_Some in Hrow as (lrow & mrow & -> & Hl & Hm).
  assert (Hlrow : Z.of_nat (length lrow)
                  = frames_of self (Z.of_nat (N + 2 * (win_length self / 2)))).
  { rewrite Forall_forall in Hall. eapply Hall, list_elem_of_lookup_2, Hl. }
  assert (Hwidth : size1 labels = length lrow).
  { destruct labels as [|row0 labels]; [done|]. simpl.
    rewrite Forall_forall in Hall.
    assert (Z.of_nat (length row0)
            = frames_of self (Z.of_nat (N + 2 * (win_length self / 2))))
      by (apply Hall; left).
    lia. }
  unfold make_pad_mask in Hm. rewrite list_lookup_fmap, Hi in Hm.
  injection Hm as <-.
  rewrite length_zip_with, length_fmap, length_seq, Hwidth, Nat.min_id, Hlrow.
  unfold olens in Hi. rewrite <- list_fmap_compose, list_lookup_fmap in Hi.
  destruct (input_lengths !! i) as [n|] eqn:Hn; [|done].
  injection Hi as <-. cbv [compose].
  rewrite Forall_forall in Hrange.
  specialize (Hrange n (list_elem_of_lookup_2 _ _ _ Hn)).
  pose proof (frames_of_bounds self N n n Hhop ltac:(lia) ltac:(lia)
                ltac:(lia)) as Hb.
  cbv zeta in Hb.
  change (Nat.divmod (win_length self) 1 0 1).1
    with (win_length self / 2)%nat.
  lia.
Qed.

Lemma forward_lengths_within_frames_witness :
  ∃ output olens,
    forward {| win_length := 4; hop_length := 2; center := true |}
            [[[4]; [4]; [4]; [4]; [4]; [4]; [9]; [9]]] (Some [6])
    = Ok (output, Some olens)
    ∧ length olens = 1%nat ∧ length output = 1%nat
    ∧ ∀ (i : nat) (len : Z) (row : list Z),
        olens !! i = Some len → output !! i = Some row →
        0 ≤ len ≤ Z.of_nat (length row).
Proof.
  apply (forward_lengths_within_frames
           {| win_length := 4; hop_length := 2; center := true |}
           [[[4]; [4]; [4]; [4]; [4]; [4]; [9]; [9]]] [6] 1 8 1);
    try reflexivity; try lia; try discriminate.
  - split; [reflexivity|]. repeat constructor.
  - repeat constructor; simpl; lia.
Defined.

(** X15. A centred [forward] with [hop_length] 0 raises
    [ZeroDivisionError], once the padding of a batch with a common item
    length has gone through. *)
Theorem forward_zero_hop (self : FrameLabelAggregate)
    (input : list (list (list Z))) (input_lengths : option (list Z)) :
  center self = true → hop_length self = 0%nat →
  Forall (λ x, length x = size1 input) input →
  forward self input input_lengths = Raise ZeroDivisionError.
Proof.
  intros Hc Hhop Hall. unfold forward. rewrite Hc.
  destruct (center_padding_batch (win_length self / 2) (size1 input)
              (size2 input) input Hall) as (padded & -> & _).
  cbn [mbind result_bind]. by rewrite bool_decide_eq_true_2.
Qed.

Lemma forward_zero_hop_witness :
  forward {| win_length := 4; hop_length := 0; center := true |}
          [[[1]; [2]; [3]]] None = Raise ZeroDivisionError.
Proof.
  apply (forward_zero_hop
           {| win_length := 4; hop_length := 0; center := true |}
           [[[1]; [2]; [3]]] None); try reflexivity.
  repeat constructor.
Defined.

(** ** Segments as runs *)

(** A walk records exactly the indices where the stream changes from one
    sample to the next. *)
Lemma boundary_walk_changes (x : list Z) (n : nat) (sq0 : list nat) :
  (n ≤ length x)%nat → last sq0 = Some 0%nat →
  ∃ rec, boundary_walk x n sq0 = Ok (sq0 ++ rec ++ [n])
         ∧ Forall (λ j, 0 < j < n)%nat rec
         ∧ ∀ i, (0 < i < n)%nat → (i ∈ rec ↔ x !! (i - 1)%nat ≠ x !! i).
Proof.
  intros Hn H0.
  destruct (boundary_loop_records x n sq0 Hn H0)
    as (rec & Hloop & [Hrec Hiff] & Hadj).
  exists rec. unfold boundary_walk. rewrite Hloop. simpl.
  rewrite <- (assoc_L (++)). split; [done|]. split; [done|].
  intros i Hi. rewrite Hiff, Hadj by lia. done.
Qed.

Lemma StronglySorted_lt_between (l : list nat) (i a b j : nat) :
  StronglySorted (<)%nat l → l !! i = Some a → l !! (i + 1)%nat = Some b →
  j ∈ l → ¬ (a < j < b)%nat.
Proof.
  intros Hl Ha Hb [k Hk]%list_elem_of_lookup Hj.
  destruct (decide (k < i)%nat).
  { pose proof (StronglySorted_lt_lookup l k i j a Hl Hk Ha). lia. }
  destruct (decide (k = i)) as [->|]; [simplify_eq; lia|].
  destruct (decide (k = i + 1)%nat) as [->|]; [simplify_eq; lia|].
  pose proof (StronglySorted_lt_lookup l (i + 1) k b j Hl Hb Hk). lia.
Qed.

Lemma mode_constant (l : list Z) (v : Z) :
  l ≠ [] → (∀ y, y ∈ l → y = v) → mode l = Ok v.
Proof.
  intros Hl Hall. destruct (mode_spec l Hl) as (m & Hm & Hin & _).
  by rewrite Hm, (Hall m Hin).
Qed.

Lemma elem_of_slice {A : Type} (x : list A) (l r : nat) (v : A) :
  v ∈ slice x l r ↔ ∃ j, (l ≤ j < r)%nat ∧ x !! j = Some v.
Proof.
  rewrite list_elem_of_lookup. split.
  - intros [k Hk]. rewrite lookup_slice in Hk. case_decide; [|done].
    exists (l + k)%nat. split; [lia|done].
  - intros (j & Hj & Hv). exists (j - l)%nat.
    rewrite lookup_slice, decide_True by lia. rewrite <- Hv. f_equal. lia.
Qed.

(** A stream that does not change inside [l, r) is constant there. *)
Lemma constant_between (x : list Z) (l r : nat) :
  (∀ j, (l < j < r)%nat → x !! (j - 1)%nat = x !! j) →
  ∀ j, (l ≤ j < r)%nat → x !! j = x !! l.
Proof.
  intros Hstep j. induction j as [|j IH]; intros Hj.
  - by replace l with 0%nat by lia.
  - destruct (decide (l = S j)) as [->|]; [done|].
    rewrite <- IH by lia. rewrite <- (Hstep (S j)) by lia.
    f_equal. lia.
Qed.

(** What both walks leave in the boundary list when the two valid lengths
    are the same [n]. *)
Lemma boundaries_changes (durations score : list Z) (n : nat)
    (sq : list nat) :
  (n ≤ length durations)%nat → (n ≤ length score)%nat →
  boundaries durations n score n = Ok sq →
  ∀ j, (0 < j < n)%nat →
       (j ∈ sq ↔ durations !! (j - 1)%nat ≠ durations !! j
                 ∨ score !! (j - 1)%nat ≠ score !! j).
Proof.
  intros Hd Hs Hb j Hj.
  destruct (boundary_walk_changes durations n [0%nat])
    as (rec_d & Hwd & Hrd & Hcd); [done..|].
  destruct (boundary_walk_changes score n
              (([0%nat] ++ rec_d ++ [n]) ++ [0%nat]))
    as (rec_s & Hws & Hrs & Hcs); [done|apply last_snoc|].
  unfold boundaries in Hb. rewrite Hwd in Hb. cbn [mbind result_bind] in Hb.
  rewrite Hws in Hb. injection Hb as <-.
  rewrite elem_of_sorted_set, <- Hcd, <- Hcs by done.
  repeat (rewrite elem_of_cons || rewrite elem_of_app || rewrite elem_of_nil).
  intuition lia.
Qed.

Lemma get_segments_within (durations score tempo : list Z)
    (durations_lengths score_lengths tempo_lengths : nat)
    (r : list Z * nat * list Z * nat * list Z * nat) :
  get_segments durations durations_lengths score score_lengths
               tempo tempo_lengths = Ok r →
  (durations_lengths ≤ length durations)%nat
  ∧ (score_lengths ≤ length score)%nat.
Proof.
  intros Hseg.
  destruct (decide (durations_lengths ≤ length durations)%nat) as [Hd|Hd].
  - split; [done|].
    destruct (decide (score_lengths ≤ length score)%nat) as [Hs|Hs]; [done|].
    unfold get_segments, boundaries in Hseg.
    destruct (boundary_walk_records durations durations_lengths [0%nat])
      as (rec_d & Hwd & _); [done..|].
    rewrite Hwd in Hseg. cbn [mbind result_bind] in Hseg.
    rewrite boundary_walk_overrun in Hseg; [done|lia|apply last_snoc].
  - unfold get_segments, boundaries in Hseg.
    rewrite boundary_walk_overrun in Hseg; [done|lia|done].
Qed.

Lemma get_segments_runs_both (durations score tempo : list Z)
    (n tempo_lengths : nat) (sd ss st : list Z) (k k2 k3 : nat) :
  get_segments durations n score n tempo tempo_lengths
  = Ok (sd, k, ss, k2, st, k3) →
  ∃ sq,
    boundaries durations n score n = Ok sq
    ∧ (∀ i l r j, sq !! i = Some l → sq !! (i + 1)%nat = Some r →
                  (l ≤ j < r)%nat →
                  is_Some (sd !! i)
                  ∧ durations !! j = sd !! i ∧ score !! j = ss !! i)
    ∧ (∀ i, (i + 1 < k)%nat →
            sd !! i ≠ sd !! (i + 1)%nat ∨ ss !! i ≠ ss !! (i + 1)%nat).
Proof.
  intros Hseg.
  destruct (get_segments_within _ _ _ _ _ _ _ Hseg) as [Hd Hs].
  destruct (get_segments_inv _ _ _ _ _ _ _ _ _ _ _ _ Hseg)
    as (sq & Hb & Hk & -> & -> & F1 & F2 & _).
  destruct (boundaries_structure _ _ _ _ _ Hb) as (Hsorted & _ & _ & _).
  assert (Hle := boundaries_bound n _ _ _ _ _ Hb ltac:(lia) ltac:(lia)).
  rewrite Forall_forall in Hle.
  assert (Hchg := boundaries_changes _ _ _ _ Hd Hs Hb).
  assert (Hrun : ∀ i l r j, sq !! i = Some l → sq !! (i + 1)%nat = Some r →
            (l ≤ j < r)%nat →
            is_Some (sd !! i)
            ∧ durations !! j = sd !! i ∧ score !! j = ss !! i).
  { intros i l r j Hl Hr Hj.
    assert (Hrn : (r ≤ n)%nat) by (eapply Hle, list_elem_of_lookup_2, Hr).
    assert (Hi : (i < k)%nat) by (apply lookup_lt_Some in Hr; lia).
    assert (Hseq : seq 0 k !! i = Some i) by by apply lookup_seq_lt.
    destruct (Forall2_lookup_l _ _ _ _ _ F1 Hseq)
      as (vd & Hvd & l1 & r1 & Hl1 & Hr1 & Hmd).
    destruct (Forall2_lookup_l _ _ _ _ _ F2 Hseq)
      as (vs & Hvs & l2 & r2 & Hl2 & Hr2 & Hms).
    simplify_eq.
    assert (Hstep : ∀ j, (l < j < r)%nat →
              durations !! (j - 1)%nat = durations !! j
              ∧ score !! (j - 1)%nat = score !! j).
    { intros j' Hj'.
      assert (Hnot : j' ∉ sq)
        by (intros Hin; by apply (StronglySorted_lt_between sq i l r j')).
      rewrite Hchg in Hnot by lia.
      split; apply dec_stable; tauto. }
    assert (Hcd := constant_between durations l r
                     (λ j' Hj', proj1 (Hstep j' Hj'))).
    assert (Hcs := constant_between score l r
                     (λ j' Hj', proj2 (Hstep j' Hj'))).
    apply mode_elem_of, elem_of_slice in Hmd as (jd & Hjd & Hvjd).
    apply mode_elem_of, elem_of_slice in Hms as (js & Hjs & Hvjs).
    rewrite Hvd, Hvs. split; [by eexists|].
    rewrite Hcd, <- (Hcd jd), Hcs, <- (Hcs js) by done. done. }
  exists sq. split; [done|]. split; [exact Hrun|].
  intros i Hi.
  destruct (lookup_lt_is_Some_2 sq i) as [l Hl]; [lia|].
  destruct (lookup_lt_is_Some_2 sq (i + 1)) as [r Hr]; [lia|].
  destruct (lookup_lt_is_Some_2 sq (i + 1 + 1)) as [r' Hr']; [lia|].
  assert (l < r)%nat
    by (eapply (StronglySorted_lt_lookup sq i (i + 1)); [done..|lia]).
  assert (r < r')%nat
    by (eapply (StronglySorted_lt_lookup sq (i + 1) (i + 1 + 1)); [done..|lia]).
  assert (r' ≤ n)%nat by (eapply Hle, list_elem_of_lookup_2, Hr').
  destruct (Hrun i l r (r - 1)%nat Hl Hr) as (_ & Hd1 & Hs1); [lia|].
  destruct (Hrun (i + 1)%nat r r' r Hr Hr') as (_ & Hd2 & Hs2); [lia|].
  rewrite <- Hd1, <- Hd2, <- Hs1, <- Hs2.
  apply Hchg; [lia|]. eapply list_elem_of_lookup_2, Hr.
Qed.

(** X16. When durations and score have the same valid length, the segments
    of [get_segments] are the maximal runs on which duration and score are
    both constant: every sample of segment [i] has the duration and the
    score reported for the segment, and two consecutive segments differ in
    duration or in score. *)
Theorem get_segments_runs (durations score tempo : list Z)
    (n tempo_lengths : nat) (sd ss st : list Z) (k k2 k3 : nat) :
  get_segments durations n score n tempo tempo_lengths
  = Ok (sd, k, ss, k2, st, k3) →
  ∃ sq,
    boundaries durations n score n = Ok sq
    ∧ (∀ i l r j, sq !! i = Some l → sq !! (i + 1)%nat = Some r →
                  (l ≤ j < r)%nat →
                  is_Some (sd !! i)
                  ∧ durations !! j = sd !! i ∧ score !! j = ss !! i)
    ∧ (∀ i, (i + 1 < k)%nat →
            sd !! i ≠ sd !! (i + 1)%nat ∨ ss !! i ≠ ss !! (i + 1)%nat).
Proof. apply get_segments_runs_both. Qed.

Lemma get_segments_runs_witness :
  ∃ sq,
    boundaries [1;1;2;2;2] 5 [9;9;9;8;8] 5 = Ok sq
    ∧ (∀ i l r j, sq !! i = Some l → sq !! (i + 1)%nat = Some r →
                  (l ≤ j < r)%nat →
                  is_Some ([1;2;2] !! i)
                  ∧ [1;1;2;2;2] !! j = [1;2;2] !! i
                  ∧ [9;9;9;8;8] !! j = [9;9;8] !! i)
    ∧ (∀ i, (i + 1 < 3)%nat →
            [1;2;2] !! i ≠ [1;2;2] !! (i + 1)%nat
            ∨ [9;9;8] !! i ≠ [9;9;8] !! (i + 1)%nat).
Proof.
  apply (get_segments_runs [1;1;2;2;2] [9;9;9;8;8] [4;4;4;6;6] 5 5
           [1;2;2] [9;9;8] [4;4;6] 3 3 3).
  vm_compute. reflexivity.
Defined.

(** ** Segmenting the segments again *)

Lemma StronglySorted_lt_interval (l : list nat) (a k : nat) :
  StronglySorted (<)%nat l →
  (∀ j, j ∈ l ↔ (a ≤ j ≤ k)%nat) →
  (a ≤ S k)%nat →
  l = seq a (S k - a).
Proof.
  intros Hl. revert a. induction Hl as [|x l Hl IH Hx]; intros a Hin Ha.
  - destruct (decide (a = S k)) as [->|Hne].
    + by rewrite Nat.sub_diag.
    + exfalso. apply (elem_of_nil a). apply Hin. lia.
  - rewrite Forall_forall in Hx.
    assert (Hxa : (a ≤ x ≤ k)%nat) by (apply Hin; left).
    assert (x = a) as ->.
    { assert (Hain : a ∈ x :: l) by (apply Hin; lia).
      apply elem_of_cons in Hain as [->|Hain]; [done|].
      apply Hx in Hain. lia. }
    replace (S k - a)%nat with (S (k - a)) by lia. simpl. f_equal.
    replace (k - a)%nat with (S k - S a)%nat by lia.
    apply IH; [|lia].
    intros j. split.
    + intros Hj. specialize (Hx j Hj).
      assert (a ≤ j ≤ k)%nat by (apply Hin; by right). lia.
    + intros Hj. assert (Hjl : j ∈ a :: l) by (apply Hin; lia).
      apply elem_of_cons in Hjl as [->|Hjl]; [lia|done].
Qed.

Lemma slice_singleton {A : Type} (x : list A) (i : nat) (a : A) :
  x !! i = Some a → slice x i (i + 1) = [a].
Proof.
  intros Ha. apply list_eq. intros j. rewrite lookup_slice.
  destruct j as [|j]; simpl.
  - rewrite decide_True by lia. by rewrite Nat.add_0_r.
  - by rewrite decide_False by lia.
Qed.

(** Streams that change, one or the other, at every index: every index is a
    boundary and every segment is one sample. *)
Lemma boundaries_all (durations score : list Z) (k : nat) :
  length durations = k → length score = k →
  (∀ i, (i + 1 < k)%nat →
        durations !! i ≠ durations !! (i + 1)%nat
        ∨ score !! i ≠ score !! (i + 1)%nat) →
  boundaries durations k score k = Ok (seq 0 (S k)).
Proof.
  intros Hd Hs Hchg.
  destruct (boundary_walk_records durations k [0%nat])
    as (rec_d & Hwd & _); [lia|done|].
  destruct (boundary_walk_records score k
              (([0%nat] ++ rec_d ++ [k]) ++ [0%nat]))
    as (rec_s & Hws & _); [lia|apply last_snoc|].
  assert (Hb : ∃ sq, boundaries durations k score k = Ok sq).
  { unfold boundaries. rewrite Hwd. cbn [mbind result_bind]. rewrite Hws.
    by eexists. }
  destruct Hb as [sq Hb]. rewrite Hb. f_equal.
  destruct (boundaries_structure _ _ _ _ _ Hb) as (Hsorted & Hhead & Hlast & _).
  assert (Hle := boundaries_bound k _ _ _ _ _ Hb ltac:(lia) ltac:(lia)).
  rewrite Forall_forall in Hle.
  rewrite Nat.max_id in Hlast.
  replace (S k) with (S k - 0)%nat by lia.
  apply StronglySorted_lt_interval; [done| |lia].
  intros j. split; [intros Hj; specialize (Hle j Hj); lia|].
  intros [_ Hj].
  destruct (decide (j = 0%nat)) as [->|];
    [by apply head_Some_elem_of|].
  destruct (decide (j = k)) as [->|]; [by apply last_Some_elem_of|].
  apply (boundaries_changes durations score k sq); [lia..|done|lia|].
  replace j with (j - 1 + 1)%nat at 2 4 by lia. apply Hchg. lia.
Qed.

Lemma segment_values_single (x : list Z) (k : nat) (m : list Z) :
  length x = k →
  Forall2 (segment_value x (seq 0 (S k))) (seq 0 k) m → m = x.
Proof.
  intros Hx Hall. apply list_eq. intros i.
  destruct (decide (i < k)%nat) as [Hi|Hi].
  - assert (Hseq : seq 0 k !! i = Some i) by by apply lookup_seq_lt.
    destruct (Forall2_lookup_l _ _ _ _ _ Hall Hseq)
      as (v & Hv & l & r & Hl & Hr & Hm).
    apply lookup_seq in Hl as [-> _]. apply lookup_seq in Hr as [-> _].
    destruct (lookup_lt_is_Some_2 x i) as [a Ha]; [lia|].
    simpl in Hm. rewrite (slice_singleton _ _ _ Ha) in Hm.
    injection Hm as <-. by rewrite Hv, Ha.
  - apply Forall2_length in Hall. rewrite length_seq in Hall.
    rewrite !lookup_ge_None_2; [done|lia..].
Qed.

(** X17. Segmenting again changes nothing: when durations and score have
    the same valid length, [get_segments] applied to the segment durations,
    scores and tempos it returned, with the segment count as the three
    lengths, returns the same three lists and the same count. *)
Theorem get_segments_idempotent (durations score tempo : list Z)
    (n tempo_lengths : nat) (sd ss st : list Z) (k k2 k3 : nat) :
  get_segments durations n score n tempo tempo_lengths
  = Ok (sd, k, ss, k2, st, k3) →
  get_segments sd k ss k st k = Ok (sd, k, ss, k, st, k).
Proof.
  intros Hseg.
  assert (Hlens : length sd = k ∧ length ss = k ∧ length st = k).
  { destruct (get_segments_inv _ _ _ _ _ _ _ _ _ _ _ _ Hseg)
      as (sq & _ & _ & _ & _ & F1 & F2 & F3).
    apply Forall2_length in F1, F2, F3. rewrite length_seq in F1, F2, F3.
    done. }
  destruct Hlens as (Hsd & Hss & Hst).
  destruct (get_segments_runs_both _ _ _ _ _ _ _ _ _ _ _ Hseg)
    as (sq0 & _ & _ & Hchg).
  assert (Hb := boundaries_all sd ss k Hsd Hss Hchg).
  destruct (get_segments_ok sd ss st k k k) as (sd' & ss' & st' & k' & Hagain);
    [lia..|].
  rewrite Hagain.
  destruct (get_segments_inv _ _ _ _ _ _ _ _ _ _ _ _ Hagain)
    as (sq & Hb' & Hk' & _ & _ & F1 & F2 & F3).
  rewrite Hb in Hb'. injection Hb' as <-.
  assert (k' = k) as ->.
  { rewrite Hk'. change (seq 0 (S k)) with (0%nat :: seq 1 k). simpl.
    rewrite length_seq. lia. }
  by rewrite (segment_values_single sd k sd'), (segment_values_single ss k ss'),
       (segment_values_single st k st').
Qed.

Lemma get_segments_idempotent_witness :
  get_segments [1;2;2] 3 [9;9;8] 3 [4;4;6] 3
  = Ok ([1;2;2], 3%nat, [9;9;8], 3%nat, [4;4;6], 3%nat).
Proof.
  apply (get_segments_idempotent [1;1;2;2;2] [9;9;9;8;8] [4;4;4;6;6] 5 5
           [1;2;2] [9;9;8] [4;4;6] 3 3 3).
  vm_compute. reflexivity.
Defined.
